(** * restore/utils.py: Fourier resampling and patch-correlation SNR

    A shallow embedding of the numerical utilities of the [restore]
    program ([src/restore/utils.py]) together with the properties that
    its specification states about them.

    Modelling conventions.
    - numpy floating point arrays hold real numbers ([R]): arithmetic on
      array elements is exact, rounding and overflow are not modelled.
      This fixes shapes, exceptions, memory effects and formulas.  Where
      a statement needs a quotient to be exactly 1 or a sum to be exactly
      0, it is a statement about exact arithmetic; what the code returns
      in float64 is computed with module [Float64].
    - numpy scalars that the code divides ([numerator / denominator],
      [CC / (1. - CC)], the mean of a Python list) are [npfloat]s: a real
      number, an infinity or NaN, because numpy answers a division by
      zero with [inf] or [nan] and a warning instead of raising.
    - Python exceptions are the [Err] results of an error monad; the
      functions that mutate arrays in place run in a state monad over a
      store of array buffers, so that aliasing is visible.
    - [numpy.fft], [numpy.arange], [numpy.searchsorted] and array
      broadcasting are library code: they are modelled after their
      documented behaviour. *)

From Stdlib Require Import ZArith Reals Lra Lia.
From Stdlib Require Floats.PrimFloat.
From stdpp Require Import base option list.
From Equations Require Import Equations.

Set Default Proof Using "Type".

(** ** Python exceptions and the error monad *)

Inductive exn : Type :=
  | ValueError
  | IndexError
  | ZeroDivisionError
  | DanglingRef.   (* a reference to no array of the store; not reachable from Python *)

Inductive result (A : Type) : Type :=
  | Ok (a : A)
  | Err (e : exn).
Arguments Ok {A} a.
Arguments Err {A} e.

Definition rbind {A B} (r : result A) (k : A -> result B) : result B :=
  match r with
  | Ok a => k a
  | Err e => Err e
  end.

Definition is_ok {A} (r : result A) : Prop := exists a, r = Ok a.
Definition raises {A} (r : result A) : Prop := exists e, r = Err e.

Declare Scope py_scope.
Delimit Scope py_scope with py.
Notation "x <- r ;; k" := (rbind r (fun x => k))
  (at level 100, r at next level, right associativity) : py_scope.

(** ** numpy scalars: finite reals, infinities and NaN *)

Inductive npfloat : Type :=
  | Fin (x : R)
  | Inf (neg : bool)
  | NaN.

Definition Rnegb (x : R) : bool := if Rlt_dec x 0 then true else false.
Definition Rzerob (x : R) : bool := if Req_dec_T x 0 then true else false.

Definition fneg (a : npfloat) : npfloat :=
  match a with
  | Fin x => Fin (- x)
  | Inf s => Inf (negb s)
  | NaN => NaN
  end.

Definition fadd (a b : npfloat) : npfloat :=
  match a, b with
  | Fin x, Fin y => Fin (x + y)
  | Fin _, Inf s => Inf s
  | Inf s, Fin _ => Inf s
  | Inf s, Inf t => if Bool.eqb s t then Inf s else NaN
  | _, _ => NaN
  end.

Definition fsub (a b : npfloat) : npfloat := fadd a (fneg b).

Definition fmul (a b : npfloat) : npfloat :=
  match a, b with
  | Fin x, Fin y => Fin (x * y)
  | Fin x, Inf s => if Rzerob x then NaN else Inf (xorb (Rnegb x) s)
  | Inf s, Fin y => if Rzerob y then NaN else Inf (xorb s (Rnegb y))
  | Inf s, Inf t => Inf (xorb s t)
  | _, _ => NaN
  end.

(** Division of numpy scalars never raises.  The model has one zero, read
    as [+0.]: a non-zero dividend over zero is the infinity of the sign of
    the dividend, and [0/0] is NaN. *)
Definition fdiv (a b : npfloat) : npfloat :=
  match a, b with
  | Fin x, Fin y =>
      if Rzerob y then (if Rzerob x then NaN else Inf (Rnegb x))
      else Fin (x / y)
  | Fin _, Inf _ => Fin 0
  | Inf s, Fin y => Inf (xorb s (Rnegb y))
  | _, _ => NaN
  end.

Definition fsum (l : list npfloat) : npfloat := foldr fadd (Fin 0) l.

(** [np.mean] of a Python list of scalars: the sum over the count; the
    mean of the empty list is [0/0], which is NaN. *)
Definition np_mean (l : list npfloat) : npfloat :=
  fdiv (fsum l) (Fin (INR (length l))).

(** ** Two-dimensional arrays *)

Record array2 (A : Type) : Type := Array2 {
  ncols : nat;
  rows : list (list A)
}.
Arguments Array2 {A} ncols rows.
Arguments ncols {A} a.
Arguments rows {A} a.

Definition nrows {A} (a : array2 A) : nat := length (rows a).
Definition shape {A} (a : array2 A) : nat * nat := (nrows a, ncols a).
Definition size {A} (a : array2 A) : nat := nrows a * ncols a.

(** Every row has [ncols] entries. *)
Definition rect {A} (a : array2 A) : Prop :=
  Forall (fun r => length r = ncols a) (rows a).

(** The entries, row after row. *)
Definition elems {A} (a : array2 A) : list A := concat (rows a).


Definition amap {A B} (f : A -> B) (a : array2 A) : array2 B :=
  Array2 (ncols a) (map (map f) (rows a)).

Definition Rsum (l : list R) : R := foldr Rplus 0%R l.

(** [a.sum()] *)
Definition asum (a : array2 R) : R := Rsum (map Rsum (rows a)).

(** [a.mean()]; only used where [a] has an element to subtract it from. *)
Definition amean (a : array2 R) : R := (asum a / INR (size a))%R.

(** The array [a - a.mean()] *)
Definition center (a : array2 R) : array2 R :=
  amap (fun x => (x - amean a)%R) a.

(** [a**2] *)
Definition asq (a : array2 R) : array2 R := amap (fun x => (x ^ 2)%R) a.

(** *** Slices *)

(** Python's clipping of a slice bound against a length [n]. *)
Definition slice_bound (n : nat) (i : Z) : nat :=
  if (i <? 0)%Z then Z.to_nat (Z.max 0 (i + Z.of_nat n))
  else Nat.min (Z.to_nat i) n.

(** [l[lo:hi]] *)
Definition py_slice {A} (lo hi : Z) (l : list A) : list A :=
  let lo' := slice_bound (length l) lo in
  let hi' := slice_bound (length l) hi in
  take (hi' - lo') (drop lo' l).

(** [a[r0:r1, c0:c1]] *)
Definition slice2 {A} (r0 r1 c0 c1 : Z) (a : array2 A) : array2 A :=
  Array2 (slice_bound (ncols a) c1 - slice_bound (ncols a) c0)
         (map (py_slice c0 c1) (py_slice r0 r1 (rows a))).

(** [np.vstack((a, b))] *)
Definition vstack {A} (a b : array2 A) : result (array2 A) :=
  if decide (ncols a = ncols b) then Ok (Array2 (ncols a) (rows a ++ rows b))
  else Err ValueError.

(** *** Broadcasting *)

Definition stretch {A} (n : nat) (l : list A) : list A :=
  match l with
  | [x] => replicate n x
  | _ => l
  end.

(** [np.broadcast_to(a, (r, c))] for a two-dimensional [a] *)
Definition broadcast_to {A} (r c : nat) (a : array2 A) : result (array2 A) :=
  if decide ((nrows a = r \/ nrows a = 1) /\ (ncols a = c \/ ncols a = 1))
  then Ok (Array2 c (stretch r (map (stretch c) (rows a))))
  else Err ValueError.

Definition bdim (n m : nat) : result nat :=
  if decide (n = m) then Ok n
  else if decide (n = 1) then Ok m
  else if decide (m = 1) then Ok n
  else Err ValueError.

Definition azip {A B C} (f : A -> B -> C) (a : array2 A) (b : array2 B)
  : array2 C :=
  Array2 (ncols a) (zip_with (zip_with f) (rows a) (rows b)).

(** [a * b] *)
Definition amul (a b : array2 R) : result (array2 R) :=
  (r <- bdim (nrows a) (nrows b) ;;
   c <- bdim (ncols a) (ncols b) ;;
   a' <- broadcast_to r c a ;;
   b' <- broadcast_to r c b ;;
   Ok (azip Rmult a' b'))%py.

(** [bool(a)] for an array: ambiguous with more than one element. *)
Definition array_bool (a : array2 R) : result bool :=
  match elems a with
  | [] => Ok false
  | [x] => Ok (negb (Rzerob x))
  | _ => Err ValueError
  end.

(** ** numpy library routines *)

Local Open Scope Z_scope.

(** [int(x)] for a float: truncation towards zero. *)
Definition py_int (x : R) : Z :=
  if Rle_dec 0 x then Int_part x else - Int_part (- x).

(** [np.arange(0, stop, step)] over the integers: [ceil(stop/step)]
    entries, none when that is not positive; a zero step divides by
    zero. *)
Definition np_arange (stop step : Z) : result (list Z) :=
  if decide (step = 0) then Err ZeroDivisionError
  else Ok (map (fun i => i * step) (seqZ 0 (- ((- stop) / step)))).

(** [itertools.product(xs, ys)]: the first component varies slowest. *)
Definition product {A B} (xs : list A) (ys : list B) : list (A * B) :=
  x ← xs; y ← ys; [(x, y)].

(** [numpy.fft.rfftfreq(n, d)] *)
Definition rfftfreq (n : nat) (d : R) : result (list R) :=
  if Rzerob (INR n * d) then Err ZeroDivisionError
  else
    let val := (1 / (INR n * d))%R in
    let N := Z.of_nat n / 2 + 1 in
    Ok (map (fun k => (IZR k * val)%R) (seqZ 0 N)).

(** [numpy.fft.fftfreq(n, d)]: the non-negative frequencies, then the
    negative ones. *)
Definition fftfreq (n : nat) (d : R) : result (list R) :=
  if Rzerob (INR n * d) then Err ZeroDivisionError
  else
    let val := (1 / (INR n * d))%R in
    let N := (Z.of_nat n - 1) / 2 + 1 in
    let p1 := seqZ 0 N in
    let p2 := seqZ (- (Z.of_nat n / 2)) (Z.of_nat n / 2) in
    Ok (map (fun k => (IZR k * val)%R) (p1 ++ p2)).

(** [np.meshgrid(xs, ys)] *)
Definition meshgrid {A} (xs ys : list A) : array2 A * array2 A :=
  (Array2 (length xs) (map (fun _ => xs) ys),
   Array2 (length xs) (map (fun y => map (fun _ => y) xs) ys)).

(** [np.searchsorted(a, key)] (side left): numpy's binary search. *)
Fixpoint bisect_left (fuel : nat) (a : list R) (key : R) (lo hi : nat) : nat :=
  match fuel with
  | O => lo
  | S fuel' =>
      if decide (lo < hi)%nat then
        let mid := (lo + (hi - lo) / 2)%nat in
        match a !! mid with
        | Some x =>
            if Rlt_dec x key then bisect_left fuel' a key (mid + 1)%nat hi
            else bisect_left fuel' a key lo mid
        | None => lo
        end
      else lo
  end.

Definition searchsorted (a : list R) (key : R) : nat :=
  bisect_left (length a) a key 0%nat (length a).

(** A non-decreasing list of reals. *)
Definition sorted (l : list R) : Prop :=
  forall (i j : nat) (x y : R),
    (i <= j)%nat -> l !! i = Some x -> l !! j = Some y -> (x <= y)%R.

(** [c] is the first index at which [l] meets or exceeds [key], the length
    of [l] when it never does: the entries before [c] are below [key], the
    others are not. *)
Definition insertion_point (l : list R) (key : R) (c : nat) : Prop :=
  (c <= length l)%nat
  /\ (forall (i : nat) (x : R), l !! i = Some x -> (i < c)%nat -> (x < key)%R)
  /\ (forall (i : nat) (x : R), l !! i = Some x -> (c <= i)%nat -> (key <= x)%R).

Local Close Scope Z_scope.

(** *** The discrete Fourier transforms of [numpy.fft] *)

Definition complex : Type := R * R.

Local Open Scope R_scope.

Definition Cadd (z w : complex) : complex := (z.1 + w.1, z.2 + w.2).
Definition Cmul (z w : complex) : complex :=
  (z.1 * w.1 - z.2 * w.2, z.1 * w.2 + z.2 * w.1).
Definition Cscale (r : R) (z : complex) : complex := (r * z.1, r * z.2).
Definition cis (t : R) : complex := (cos t, sin t).
Definition Csum (l : list complex) : complex := foldr Cadd (0, 0) l.

(** [sum_m a[m] * exp(sgn * 2 pi i * m * k / n)] for [k < n] *)
Definition dft (sgn : R) (a : list complex) : list complex :=
  let n := length a in
  map (fun k =>
         Csum (imap (fun m z =>
                       Cmul z (cis (sgn * 2 * PI * INR m * INR k / INR n))) a))
      (seq 0 n).

Definition fft (a : list complex) : list complex := dft (-1) a.
Definition ifft (a : list complex) : list complex :=
  map (Cscale (/ INR (length a))) (dft 1 a).

(** [rfft]: the non-redundant half of the transform of real data. *)
Definition rfft (a : list R) : list complex :=
  take (length a / 2 + 1) (fft (map (fun x => (x, 0)) a)).

(** [irfft(a, n)] for the even [n = 2 * (len(a) - 1)]: the inverse of
    [rfft]; the imaginary parts of the first and last coefficient are
    ignored. *)
Definition irfft (a : list complex) : list R :=
  let K := length a in
  let n := (2 * (K - 1))%nat in
  map (fun t =>
         / INR n *
         ((nth 0 a (0, 0)).1
          + Rsum (map (fun k =>
                         2 * (Cmul (nth k a (0, 0))
                                (cis (2 * PI * INR k * INR t / INR n))).1)
                      (seq 1 (K - 2)))
          + (nth (K - 1) a (0, 0)).1 * cos (PI * INR t)))
      (seq 0 n).

(** The list of the [n] columns of a list of rows. *)
Definition transpose {A} (d : A) (n : nat) (ll : list (list A)) : list (list A) :=
  map (fun j => map (fun l => nth j l d) ll) (seq 0 n).

(** [rfft2(a)]: [rfft] along the rows, then [fft] along the columns.
    A transform over no data points is refused. *)
Definition rfft2 (a : array2 R) : result (array2 complex) :=
  if decide (nrows a = 0 \/ ncols a = 0)%nat then Err ValueError
  else
    let nc := (ncols a / 2 + 1)%nat in
    let half := map rfft (rows a) in
    let cols := map fft (transpose (0, 0) nc half) in
    Ok (Array2 nc (transpose (0, 0) (nrows a) cols)).

(** [irfft2(a)]: [ifft] along the columns, then [irfft] along the rows,
    to [2 * (ncols - 1)] real columns. *)
Definition irfft2 (a : array2 complex) : result (array2 R) :=
  if decide (nrows a = 0 \/ ncols a <= 1)%nat then Err ValueError
  else
    let cols := map ifft (transpose (0, 0) (ncols a) (rows a)) in
    let rws := transpose (0, 0) (nrows a) cols in
    Ok (Array2 (2 * (ncols a - 1)) (map irfft rws)).

(** ** Fourier resampling ([utils.py], lines 54-151) *)

(** The Butterworth low-pass factor [1./(1.+(f/cutoff)**(2*bwo))]. *)
Definition butterworth (cutoff : R) (bwo : nat) (f : R) : R :=
  1 / (1 + (f / cutoff) ^ (2 * bwo)).

(** [get_mic_freqs(mic, apix)] (with [angles=False]): the magnitude of
    the spatial frequency of every coefficient of [rfft2(mic)]. *)
Definition get_mic_freqs {A} (mic : array2 A) (apix : R) : result (array2 R) :=
  (let '(n_x, n_y) := shape mic in
   fx <- rfftfreq n_y apix ;;
   fy <- fftfreq n_x apix ;;
   let '(x, y) := meshgrid fx fy in
   Ok (amap sqrt (azip Rplus (asq x) (asq y))))%py.

(** [mic_freqs[:n//2, 0]]: the first column of the first [n // 2] rows of
    a frequency field, the non-negative half of the vertical axis. *)
Definition vertical_axis (n : nat) (mic_freqs : array2 R) : list R :=
  map (fun r => nth 0%nat r 0) (take (n / 2) (rows mic_freqs)).

(** [fourier_crop(mic_ft, mic_freqs, cutoff)] *)
Definition fourier_crop {A} (mic_ft : array2 A) (mic_freqs : array2 R)
    (cutoff : R) : result (array2 A) :=
  (let '(n_x, n_y) := shape mic_ft in
   f_h <- match rows mic_freqs with
          | r :: _ => Ok r
          | [] => Err IndexError
          end ;;
   f_v <- (if decide (ncols mic_freqs = 0)%nat then Err IndexError
           else Ok (vertical_axis n_x mic_freqs)) ;;
   let c_h := Z.of_nat (searchsorted f_h cutoff) in
   let c_v := Z.of_nat (searchsorted f_v cutoff) in
   vstack (slice2 0 c_v 0 c_h mic_ft)
          (slice2 (Z.of_nat n_x - c_v) (Z.of_nat n_x) 0 c_h mic_ft))%py.

(** [mic_ft *= g]: in place, so [g] must broadcast to the shape of
    [mic_ft]. *)
Definition imul_real (mic_ft : array2 complex) (g : array2 R)
  : result (array2 complex) :=
  (g' <- broadcast_to (nrows mic_ft) (ncols mic_ft) g ;;
   Ok (azip (fun z r => Cscale r z) mic_ft g'))%py.

(** [bin_mic(mic, apix, cutoff, mic_freqs=None, lp=True, bwo=5)].  The
    arguments are only read, so they are passed by value; [None] is the
    absent [mic_freqs]. *)
Definition bin_mic (mic : array2 R) (apix cutoff : R)
    (mic_freqs : option (array2 R)) (lp : bool) (bwo : nat)
  : result (array2 R) :=
  (t <- match mic_freqs with
        | Some f => array_bool f
        | None => Ok false
        end ;;
   f <- (if t then Ok (default (Array2 0 []) mic_freqs)
         else get_mic_freqs mic apix) ;;
   mic_ft <- rfft2 mic ;;
   mic_ft <- (if lp then imul_real mic_ft (amap (butterworth cutoff bwo) f)
              else Ok mic_ft) ;;
   mic_ft_crop <- fourier_crop mic_ft f cutoff ;;
   irfft2 mic_ft_crop)%py.

Local Close Scope R_scope.

(** [next32(n)]: the loop [while n%32 != 0: n += 1].  The distance to the
    next multiple of 32 decreases, so the loop is a total function. *)
Equations? next32 (n : Z) : Z by wf (Z.to_nat ((- n) mod 32)%Z) lt :=
  next32 n with Z.eq_dec (n mod 32)%Z 0%Z => {
    | left _ := n;
    | right _ := next32 (n + 1)%Z }.
Proof.
  clear next32.
  pose proof (Z.mod_pos_bound (- n) 32 ltac:(lia)) as Hn.
  pose proof (Z.mod_pos_bound (- (n + 1)) 32 ltac:(lia)) as Hs.
  pose proof (Z.mod_pos_bound n 32 ltac:(lia)) as Hm.
  rewrite (Z.mod_eq (- n)) in * by lia.
  rewrite (Z.mod_eq (- (n + 1))) in * by lia.
  rewrite (Z.mod_eq n) in * by lia.
  lia.
Qed.

(** ** The store of arrays and the state monad *)

(** Arrays that the code updates in place live in a store; a reference
    [loc] is an index into it.  Allocation appends, so a new array never
    shares memory with an older one. *)
Abbreviation loc := nat (only parsing).
Abbreviation store := (list (array2 R)) (only parsing).

Definition M (A : Type) : Type := store -> result A * store.

Definition ret {A} (a : A) : M A := fun s => (Ok a, s).

(** An exception leaves the store as it was when it was raised. *)
Definition bind {A B} (m : M A) (k : A -> M B) : M B :=
  fun s =>
    match m s with
    | (Ok a, s') => k a s'
    | (Err e, s') => (Err e, s')
    end.

Definition lift {A} (r : result A) : M A := fun s => (r, s).

Declare Scope st_scope.
Delimit Scope st_scope with st.
Notation "x <- m ;; k" := (bind m (fun x => k))
  (at level 100, m at next level, right associativity) : st_scope.

Definition load (l : loc) : M (array2 R) :=
  fun s =>
    match s !! l with
    | Some a => (Ok a, s)
    | None => (Err DanglingRef, s)
    end.

Definition assign (l : loc) (a : array2 R) : M unit :=
  fun s => (Ok tt, <[l := a]> s).

Definition alloc_all (news : list (array2 R)) : M (list loc) :=
  fun s => (Ok (seq (length s) (length news)), s ++ news).

Fixpoint for_each {A B} (f : A -> M B) (l : list A) : M (list B) :=
  match l with
  | [] => ret []
  | x :: l' => (y <- f x ;; ys <- for_each f l' ;; ret (y :: ys))%st
  end.

(** [l[i]] for [0 <= i] *)
Definition py_index {A} (l : list A) (i : nat) : result A :=
  match l !! i with
  | Some x => Ok x
  | None => Err IndexError
  end.

(** [np.array(patches)]: one new array that holds a copy of every patch;
    [patches[i]] of the result is a view of the [i]-th copy, so the result
    is the list of the references to the copies.  Patches of unequal
    shapes do not stack to a float array and are refused. *)
Definition np_array (patches : list (array2 R)) : M (list loc) :=
  match patches with
  | [] => ret []
  | p :: _ =>
      if decide (Forall (fun q => shape q = shape p) patches)
      then alloc_all patches
      else lift (Err ValueError)
  end.

(** ** Patches and correlation ([utils.py], lines 86-96 and 178-213) *)

(** The list [patches] that [get_patches] builds: the slices of [img] at
    the offsets of [product(X_cd, Y_cd)]. *)
Definition patch_views (a : array2 R) (w : Z) (overlap : R)
  : result (list (array2 R)) :=
  (let '(N_x, N_y) := shape a in
   let step := py_int (IZR w * (1 - overlap)) in
   X_cd <- np_arange (Z.of_nat N_x - w) step ;;
   Y_cd <- np_arange (Z.of_nat N_y - w) step ;;
   Ok (map (fun c : Z * Z => slice2 c.1 (c.1 + w) c.2 (c.2 + w) a)
           (product X_cd Y_cd)))%py.

(** [get_patches(img, w=192, overlap=0)] *)
Definition get_patches (img : loc) (w : Z) (overlap : R) : M (list loc) :=
  (a <- load img ;;
   patches <- lift (patch_views a w overlap) ;;
   np_array patches)%st.

(** [get_CC(image1, image2)]: both arguments are centred in place; the
    arrays are read again afterwards, as the two may be one array.  The
    sums, roots and the quotient are those of exact arithmetic;
    [Float64.get_CC] below evaluates the same statements in float64. *)
Definition get_CC (image1 image2 : loc) : M npfloat :=
  (a1 <- load image1 ;;
   _ <- assign image1 (center a1) ;;
   a2 <- load image2 ;;
   _ <- assign image2 (center a2) ;;
   a1 <- load image1 ;;
   a2 <- load image2 ;;
   prod <- lift (amul a1 a2) ;;
   let numerator := asum prod in
   let denominator := (sqrt (asum (asq a1)) * sqrt (asum (asq a2)))%R in
   ret (fdiv (Fin numerator) (Fin denominator)))%st.

(** [get_patch_CC(image1, image2)] *)
Definition get_patch_CC (image1 image2 : loc) : M npfloat :=
  (patches1 <- get_patches image1 192 0 ;;
   patches2 <- get_patches image2 192 0 ;;
   let n_patches := length patches1 in
   ccs <- for_each (fun i =>
                      p1 <- lift (py_index patches1 i) ;;
                      p2 <- lift (py_index patches2 i) ;;
                      get_CC p1 p2)
                   (seq 0 n_patches) ;;
   ret (np_mean ccs))%st.

(** [get_SNR(image1, image2)] *)
Definition get_SNR (image1 image2 : loc) : M npfloat :=
  (CC <- get_patch_CC image1 image2 ;;
   ret (fdiv CC (fsub (Fin 1) CC)))%st.

(** *** The values that the estimators compute

    [get_patch_CC] and [get_SNR] only update the copies that [np.array]
    makes, so what they return is a function of the contents of their two
    arguments. *)

(** The quotient that [get_CC] returns for the contents [p] and [q]. *)
Definition CC_value (p q : array2 R) : npfloat :=
  fdiv (Fin (asum (azip Rmult (center p) (center q))))
       (Fin (sqrt (asum (asq (center p))) * sqrt (asum (asq (center q))))%R).

Definition patch_CC_value (a b : array2 R) : npfloat :=
  match patch_views a 192 0, patch_views b 192 0 with
  | Ok P1, Ok P2 => np_mean (zip_with CC_value P1 P2)
  | _, _ => NaN
  end.

Definition SNR_value (a b : array2 R) : npfloat :=
  let CC := patch_CC_value a b in fdiv CC (fsub (Fin 1) CC).

(** [get_denoised_SNR(raw_even, raw_odd, denoised_even, denoised_odd)] *)
Definition get_denoised_SNR (raw_even raw_odd denoised_even denoised_odd : loc)
  : M (npfloat * npfloat) :=
  (SNR_raw_half <- get_SNR raw_even raw_odd ;;
   SNR_mixed_half1 <- get_SNR denoised_even raw_odd ;;
   SNR_mixed_half2 <- get_SNR raw_even denoised_odd ;;
   let SNR_mixed_half := fdiv (fadd SNR_mixed_half1 SNR_mixed_half2) (Fin 2) in
   let SNR_denoised_half :=
     fdiv (fmul SNR_mixed_half SNR_mixed_half) SNR_raw_half in
   ret (SNR_denoised_half, SNR_raw_half))%st.

(** ** [get_CC] in float64 ([utils.py], lines 178-184)

    The same statements as [get_CC] above, evaluated with the operations
    of IEEE 754 binary64 on C-contiguous float64 arrays.  The two
    arguments are two arrays (not one array passed twice); the result is
    the quotient together with the two arrays as the call leaves them. *)

Module Float64.
Import PrimFloat.
Local Open Scope float_scope.

(** An element count as a float64; exact below [2^53]. *)
Fixpoint of_nat (n : nat) : float :=
  match n with
  | O => 0
  | S n' => of_nat n' + 1
  end.

(** numpy adds a contiguous run of float64 by pairwise summation: a plain
    loop for fewer than 8 entries, eight running sums over blocks of
    eight for up to 128 entries, and the sums of two parts beyond that. *)
Definition loop_sum (res : float) (a : list float) : float :=
  fold_left add a res.

Fixpoint block_sums (k : nat) (r a : list float) : list float * list float :=
  match k with
  | O => (r, a)
  | S k' => block_sums k' (zip_with add r (take 8 a)) (drop 8 a)
  end.

Definition unrolled_sum (a : list float) : float :=
  let n := length a in
  let '(r, rest) := block_sums (n / 8 - 1) (take 8 a) (drop 8 a) in
  match r with
  | [r0; r1; r2; r3; r4; r5; r6; r7] =>
      loop_sum (((r0 + r1) + (r2 + r3)) + ((r4 + r5) + (r6 + r7))) rest
  | _ => nan   (* not reached: there are 8 entries or more *)
  end.

Fixpoint pairwise_sum (fuel : nat) (a : list float) : float :=
  let n := length a in
  if (n <? 8)%nat then loop_sum 0 a
  else if (n <=? 128)%nat then unrolled_sum a
  else
    match fuel with
    | O => nan   (* not reached when the fuel is the length *)
    | S fuel' =>
        let n2 := (n / 2 - (n / 2) mod 8)%nat in
        pairwise_sum fuel' (take n2 a) + pairwise_sum fuel' (drop n2 a)
    end.

(** [a.sum()]: the reduction starts from the identity 0. *)
Definition asum (a : array2 float) : float :=
  0 + pairwise_sum (length (elems a)) (elems a).

(** [a.mean()]: the sum over the count; NaN for an empty array. *)
Definition amean (a : array2 float) : float :=
  asum a / of_nat (length (elems a)).

(** The array [a - a.mean()] *)
Definition center (a : array2 float) : array2 float :=
  amap (fun x => x - amean a) a.

(** [a**2]: numpy squares by multiplication. *)
Definition asq (a : array2 float) : array2 float := amap (fun x => x * x) a.

(** [a * b] *)
Definition amul (a b : array2 float) : result (array2 float) :=
  (r <- bdim (nrows a) (nrows b) ;;
   c <- bdim (ncols a) (ncols b) ;;
   a' <- broadcast_to r c a ;;
   b' <- broadcast_to r c b ;;
   Ok (azip mul a' b'))%py.

(** [s**0.5] for a sum of squares [s]: C's [pow(s, 0.5)], which is the
    square root at 0 and at infinity and agrees with it to the last place
    in between. *)
Definition pow_half (s : float) : float := sqrt s.

(** [get_CC(image1, image2)] *)
Definition get_CC (image1 image2 : array2 float)
  : result (float * (array2 float * array2 float)) :=
  (let image1 := center image1 in
   let image2 := center image2 in
   prod <- amul image1 image2 ;;
   let numerator := asum prod in
   let denominator :=
     pow_half (asum (asq image1)) * pow_half (asum (asq image2)) in
   Ok (numerator / denominator, (image1, image2)))%py.

End Float64.

(** ** Fourier padding ([utils.py], lines 69-84 and 131-145) *)

(** [np.zeros(new_shape, dtype=np.complex64)] *)
Definition zeros (new_shape : nat * nat) : array2 complex :=
  Array2 new_shape.2 (replicate new_shape.1 (replicate new_shape.2 (0%R, 0%R))).

(** [a[lo:hi]]: a slice of the rows. *)
Definition slice_rows {A} (lo hi : Z) (a : array2 A) : array2 A :=
  Array2 (ncols a) (py_slice lo hi (rows a)).

(** [dst[r0:r1, c0:c1] = src] for bounds that are already clipped to the
    shape of [dst]: [src] is broadcast to the shape of the block, and a
    slice that ends before it starts is empty. *)
Definition assign_block {A} (r0 r1 c0 c1 : nat) (src dst : array2 A)
  : result (array2 A) :=
  (src' <- broadcast_to (r1 - r0) (c1 - c0) src ;;
   Ok (Array2 (ncols dst)
         (take r0 (rows dst)
          ++ zip_with (fun d s => take c0 d ++ s ++ drop (Nat.max c0 c1) d)
               (take (r1 - r0) (drop r0 (rows dst))) (rows src')
          ++ drop (Nat.max r0 r1) (rows dst))))%py.

(** [fourier_pad_to_shape(mic_ft, new_shape)] *)
Definition fourier_pad_to_shape (mic_ft : array2 complex)
    (new_shape : nat * nat) : result (array2 complex) :=
  (let '(n_x, n_y) := shape mic_ft in
   let half := Z.of_nat (n_x / 2) in
   let top := slice_rows 0 half mic_ft in
   let bottom := slice_rows half (Z.of_nat n_x) mic_ft in
   let mic_ft_pad := zeros new_shape in
   let '(H, W) := new_shape in
   mic_ft_pad <- assign_block 0 (slice_bound H half)
                   0 (slice_bound W (Z.of_nat n_y)) top mic_ft_pad ;;
   assign_block (slice_bound H (Z.of_nat H - half)) H
     0 (slice_bound W (Z.of_nat n_y)) bottom mic_ft_pad)%py.

(** The array that [fourier_pad_to_shape] builds from a spectrum with an
    even number of rows: the upper half of the rows, rows of zeros, the
    lower half of the rows, every row filled up with zeros. *)
Definition padded (g : array2 complex) (H W : nat) : array2 complex :=
  let pad := fun r : list complex => r ++ replicate (W - ncols g) (0%R, 0%R) in
  Array2 W (map pad (take (nrows g / 2) (rows g))
            ++ replicate (H - nrows g) (replicate W (0%R, 0%R))
            ++ map pad (drop (nrows g / 2) (rows g))).

(** [unbin_mic(mic, unbin_shape)] *)
Definition unbin_mic (mic : array2 R) (unbin_shape : nat * nat)
  : result (array2 R) :=
  (fx <- fftfreq unbin_shape.1 1 ;;
   let s_x := length fx in
   fy <- rfftfreq unbin_shape.2 1 ;;
   let s_y := length fy in
   mic_ft <- rfft2 mic ;;
   mic_ft <- fourier_pad_to_shape mic_ft (s_x, s_y) ;;
   irfft2 mic_ft)%py.

(** * Properties *)

(** ** [next32] *)

Section Next32.
Local Open Scope Z_scope.

(** The loop stops at [n] plus the distance to the next multiple. *)
Lemma next32_closed_form (n : Z) : next32 n = n + (- n) mod 32.
Proof.
  funelim (next32 n); try clear Heqcall; clear Heq.
  - Z.to_euclidean_division_equations. lia.
  - match goal with IH : next32 _ = _ |- _ => rewrite IH; clear IH end.
    Z.to_euclidean_division_equations. lia.
Qed.

(** C9: [next32 n] is the least multiple of 32 that is at least [n]; it
    is [n] itself when [n] is a multiple of 32, and [next32] preserves
    the order of its arguments.  [next32] is a total function: the loop
    terminates on every integer, in particular on every [n >= 0]. *)
Theorem next32_least_multiple (n : Z) :
  (32 | next32 n)
  /\ n <= next32 n
  /\ (forall m, n <= m -> (32 | m) -> next32 n <= m)
  /\ (n mod 32 = 0 -> next32 n = n)
  /\ (forall n', n <= n' -> next32 n <= next32 n').
Proof.
  rewrite next32_closed_form.
  assert (Hleast : forall a m, a <= m -> (32 | m) -> a + (- a) mod 32 <= m).
  { intros a m Hle [k ->]. Z.to_euclidean_division_equations. lia. }
  assert (Hdiv : forall a, (32 | a + (- a) mod 32)).
  { intros a. exists (- ((- a) / 32)).
    Z.to_euclidean_division_equations. lia. }
  repeat split.
  - apply Hdiv.
  - Z.to_euclidean_division_equations. lia.
  - apply Hleast.
  - intros H0. Z.to_euclidean_division_equations. lia.
  - intros n' Hle. rewrite next32_closed_form. apply Hleast; [|apply Hdiv].
    Z.to_euclidean_division_equations. lia.
Qed.
End Next32.

(** ** The Butterworth factor *)

Section Butterworth.
Local Open Scope R_scope.

(** C8: for an order of at least one and a positive cutoff the low-pass
    factor that [bin_mic] multiplies the spectrum with is 1 at frequency
    zero and exactly one half at the cutoff frequency. *)
Theorem butterworth_gain (cutoff : R) (bwo : nat) :
  (1 <= bwo)%nat -> 0 < cutoff ->
  butterworth cutoff bwo 0 = 1 /\ butterworth cutoff bwo cutoff = 1 / 2.
Proof.
  intros Hb Hc. unfold butterworth. split.
  - replace (0 / cutoff) with 0 by (field; lra).
    rewrite pow_i by lia. field.
  - replace (cutoff / cutoff) with 1 by (field; lra).
    rewrite pow1. field.
Qed.

Lemma butterworth_gain_witness :
  butterworth (1 / 4) 5 0 = 1 /\ butterworth (1 / 4) 5 (1 / 4) = 1 / 2.
Proof. apply butterworth_gain; [lia | lra]. Defined.
End Butterworth.

(** ** Sums, means and centring *)

Section Sums.
Local Open Scope R_scope.

Lemma Rsum_app (l k : list R) : Rsum (l ++ k) = Rsum l + Rsum k.
Proof. induction l as [|x l IH]; simpl; [lra | rewrite IH; lra]. Qed.

Lemma asum_elems (a : array2 R) : asum a = Rsum (elems a).
Proof.
  unfold asum, elems. induction (rows a) as [|r l IH]; simpl; [done|].
  rewrite Rsum_app, IH. done.
Qed.

Lemma elems_amap {A B} (f : A -> B) (a : array2 A) :
  elems (amap f a) = map f (elems a).
Proof.
  unfold elems, amap; simpl. induction (rows a) as [|r l IH]; simpl; [done|].
  rewrite map_app, IH. done.
Qed.

Lemma length_elems {A} (a : array2 A) : rect a -> length (elems a) = size a.
Proof.
  unfold rect, elems, size, nrows. generalize (ncols a) as c.
  induction (rows a) as [|r l IH]; intros c Hr; simpl; [done|].
  inversion Hr; subst. rewrite length_app, (IH (length r)) by done. lia.
Qed.

Lemma rect_amap {A B} (f : A -> B) (a : array2 A) : rect a -> rect (amap f a).
Proof.
  unfold rect, amap; simpl. intros H. apply Forall_fmap.
  eapply Forall_impl; [exact H|]. intros r Hr; simpl. by rewrite length_map.
Qed.

Lemma shape_amap {A B} (f : A -> B) (a : array2 A) : shape (amap f a) = shape a.
Proof. unfold shape, nrows, amap; simpl. by rewrite length_map. Qed.

Lemma Rsum_shift (c : R) (l : list R) :
  Rsum (map (fun x => x - c) l) = Rsum l - INR (length l) * c.
Proof.
  induction l as [|x l IH]; [simpl; lra|].
  change (Rsum (x - c :: map (fun x => x - c) l)
          = Rsum (x :: l) - INR (S (length l)) * c).
  rewrite S_INR. simpl. rewrite IH. lra.
Qed.

(** The entries of a centred array sum to zero. *)
Lemma asum_center (a : array2 R) : rect a -> asum (center a) = 0.
Proof.
  intros Hr. unfold center. rewrite asum_elems, elems_amap, Rsum_shift.
  rewrite length_elems by done. unfold amean. rewrite asum_elems.
  destruct (Req_dec_T (INR (size a)) 0) as [Hz|Hnz].
  - assert (size a = 0%nat) as Hs by (by apply INR_eq).
    rewrite <- length_elems in Hs by done.
    destruct (elems a); [simpl; lra | done].
  - field. done.
Qed.

Lemma amap_id_ext {A} (f : A -> A) (a : array2 A) :
  (forall x, f x = x) -> amap f a = a.
Proof.
  intros Hf. destruct a as [c rs]. unfold amap; simpl. f_equal.
  rewrite <- (map_id rs) at 2. apply map_ext; intros r.
  rewrite <- (map_id r) at 2. by apply map_ext.
Qed.

(** Centring a second time changes nothing. *)
Lemma center_idemp (a : array2 R) : rect a -> center (center a) = center a.
Proof.
  intros Hr. unfold center at 1. unfold amean.
  rewrite asum_center by done.
  apply amap_id_ext. intros x. unfold Rdiv. lra.
Qed.

Lemma Rsum_nonneg (l : list R) : Forall (Rle 0) l -> 0 <= Rsum l.
Proof. induction 1; simpl; lra. Qed.


Lemma asum_asq_nonneg (a : array2 R) : 0 <= asum (asq a).
Proof.
  unfold asq. rewrite asum_elems, elems_amap. apply Rsum_nonneg.
  apply Forall_fmap, Forall_forall. intros x _; simpl. nra.
Qed.


Lemma azip_diag (a : array2 R) :
  asum (azip Rmult a a) = asum (asq a).
Proof.
  unfold azip, asq, amap, asum; simpl. f_equal.
  rewrite zip_with_diag, <- !list_fmap_compose.
  apply map_ext; intros r; simpl. f_equal.
  rewrite zip_with_diag. apply map_ext; intros x. simpl. lra.
Qed.
End Sums.

(** ** Broadcasting arrays of one shape *)

Section Broadcast.

Lemma stretch_same {A} (n : nat) (l : list A) : length l = n -> stretch n l = l.
Proof. destruct l as [|x [|y l]]; simpl; intros <-; done. Qed.

Lemma broadcast_to_same {A} (a : array2 A) :
  rect a -> broadcast_to (nrows a) (ncols a) a = Ok a.
Proof.
  intros Hr. unfold broadcast_to. rewrite decide_True by (split; by left).
  destruct a as [c rs]; simpl in *. f_equal. f_equal.
  rewrite stretch_same by (by rewrite length_map).
  rewrite <- (map_id rs) at 2. apply Forall_fmap_ext_1.
  eapply Forall_impl; [exact Hr|]. intros r Hl; simpl in *.
  by apply stretch_same.
Qed.

Lemma amul_same_shape (a b : array2 R) :
  rect a -> rect b -> shape a = shape b -> amul a b = Ok (azip Rmult a b).
Proof.
  intros Ha Hb Hs. unfold shape in Hs. injection Hs as Hn Hc.
  unfold amul, bdim. rewrite <- Hn, <- Hc, !decide_True by done. simpl.
  rewrite broadcast_to_same by done. simpl.
  rewrite Hn, Hc, broadcast_to_same by done. done.
Qed.
End Broadcast.

(** ** [get_CC] *)

Section CrossCorrelation.
Local Open Scope R_scope.

(** What one call of [get_CC] does to the store and what it returns,
    whether or not the two references are the same array. *)
Lemma get_CC_run (s : store) (image1 image2 : loc) (a b : array2 R) :
  s !! image1 = Some a -> s !! image2 = Some b -> rect a -> rect b ->
  get_CC image1 image2 s =
    ((prod <- amul (center a) (center b) ;;
      Ok (fdiv (Fin (asum prod))
               (Fin (sqrt (asum (asq (center a)))
                     * sqrt (asum (asq (center b)))))))%py,
     <[image2 := center b]> (<[image1 := center a]> s)).
Proof.
  intros H1 H2 Ha Hb.
  pose proof (lookup_lt_Some _ _ _ H1) as L1.
  pose proof (lookup_lt_Some _ _ _ H2) as L2.
  unfold get_CC, bind, load, assign, lift, ret. rewrite H1.
  destruct (decide (image1 = image2)) as [<-|Hne].
  - assert (b = a) as -> by congruence.
    rewrite list_lookup_insert_eq by done.
    rewrite center_idemp by done.
    rewrite !list_lookup_insert_eq by (by rewrite ?length_insert).
    by destruct (amul (center a) (center a)).
  - rewrite list_lookup_insert_ne, H2 by done.
    rewrite list_lookup_insert_ne by done.
    rewrite !list_lookup_insert_eq by (by rewrite ?length_insert).
    by destruct (amul (center a) (center b)).
Qed.

(** C6: [get_CC] centres both arrays in place: afterwards each holds its
    former entries minus their former mean, no other array has changed,
    and the value returned is [sum(a*b) / sqrt(sum(a^2) * sum(b^2))] of
    the centred arrays. *)
Theorem get_CC_centers_in_place (s : store) (image1 image2 : loc)
    (a b : array2 R) :
  s !! image1 = Some a -> s !! image2 = Some b ->
  rect a -> rect b -> shape a = shape b ->
  exists s',
    get_CC image1 image2 s =
      (Ok (fdiv (Fin (asum (azip Rmult (center a) (center b))))
                (Fin (sqrt (asum (asq (center a)) * asum (asq (center b)))))),
       s')
    /\ s' !! image1 = Some (amap (fun x => x - asum a / INR (size a)) a)
    /\ s' !! image2 = Some (amap (fun x => x - asum b / INR (size b)) b)
    /\ forall l, l <> image1 -> l <> image2 -> s' !! l = s !! l.
Proof.
  intros H1 H2 Ha Hb Hs.
  pose proof (lookup_lt_Some _ _ _ H1) as L1.
  pose proof (lookup_lt_Some _ _ _ H2) as L2.
  eexists. rewrite (get_CC_run s image1 image2 a b) by done.
  rewrite amul_same_shape
    by (try apply rect_amap; try done; unfold center; by rewrite !shape_amap).
  simpl. rewrite sqrt_mult by apply asum_asq_nonneg.
  split; [reflexivity|]. split; [|split].
  - destruct (decide (image1 = image2)) as [<-|Hne].
    + assert (b = a) as -> by congruence.
      by rewrite list_lookup_insert_eq by (by rewrite length_insert).
    + rewrite list_lookup_insert_ne by done.
      by rewrite list_lookup_insert_eq.
  - by rewrite list_lookup_insert_eq by (by rewrite length_insert).
  - intros l Hl1 Hl2. by rewrite !list_lookup_insert_ne.
Qed.

Lemma get_CC_centers_in_place_witness :
  let a := Array2 2 [[1; 2]] in
  let b := Array2 2 [[3; 5]] in
  exists s',
    get_CC 0 1 [a; b] =
      (Ok (fdiv (Fin (asum (azip Rmult (center a) (center b))))
                (Fin (sqrt (asum (asq (center a)) * asum (asq (center b)))))),
       s')
    /\ s' !! 0%nat = Some (amap (fun x => x - asum a / INR (size a)) a)
    /\ s' !! 1%nat = Some (amap (fun x => x - asum b / INR (size b)) b)
    /\ forall l, l <> 0%nat -> l <> 1%nat -> s' !! l = [a; b] !! l.
Proof.
  intros a b.
  apply (get_CC_centers_in_place [a; b] 0 1 a b);
    [reflexivity | reflexivity | repeat constructor | repeat constructor
    | reflexivity].
Defined.

Section CopyInFloat64.
Import PrimFloat.

End CopyInFloat64.



Lemma elems_azip {A B C} (f : A -> B -> C) (a : array2 A) (b : array2 B) :
  rect a -> rect b -> shape a = shape b ->
  elems (azip f a b) = zip_with f (elems a) (elems b).
Proof.
  intros Ha Hb Hs. injection Hs as Hn Hc.
  unfold rect, elems, nrows, azip in *; cbn [rows]. clear Hn.
  revert Ha Hb. rewrite Hc. generalize (ncols b). generalize (rows b).
  intros rb c Ha. revert rb.
  induction Ha as [|ra rsa Hra Ha IH]; intros [|r rb] Hb; simpl;
    [done|done|by rewrite zip_with_nil_r|].
  inversion Hb; subst. rewrite zip_with_app by lia. f_equal. by apply IH.
Qed.

Lemma asum_azip (a b : array2 R) :
  rect a -> rect b -> shape a = shape b ->
  asum (azip Rmult a b) = Rsum (zip_with Rmult (elems a) (elems b)).
Proof. intros. by rewrite asum_elems, elems_azip. Qed.

Lemma asum_asq_elems (a : array2 R) :
  rect a -> asum (asq a) = Rsum (zip_with Rmult (elems a) (elems a)).
Proof. intros. by rewrite <- azip_diag, asum_azip. Qed.

Lemma rect_center (a : array2 R) : rect a -> rect (center a).
Proof. apply rect_amap. Qed.

Lemma shape_center (a : array2 R) : shape (center a) = shape a.
Proof. apply shape_amap. Qed.
End CrossCorrelation.

(** ** Slices and patches *)

Section Patches.

Lemma slice_bound_le (n : nat) (i : Z) : slice_bound n i <= n.
Proof. unfold slice_bound. destruct (i <? 0)%Z eqn:E; lia. Qed.

Lemma slice_bound_in_range (n : nat) (i : Z) :
  (0 <= i <= Z.of_nat n)%Z -> slice_bound n i = Z.to_nat i.
Proof. intros H. unfold slice_bound. destruct (i <? 0)%Z eqn:E; lia. Qed.

Lemma length_py_slice {A} (lo hi : Z) (l : list A) :
  length (py_slice lo hi l)
  = slice_bound (length l) hi - slice_bound (length l) lo.
Proof.
  unfold py_slice. rewrite length_take, length_drop.
  pose proof (slice_bound_le (length l) hi). lia.
Qed.

Lemma Forall_py_slice {A} (P : A -> Prop) (lo hi : Z) (l : list A) :
  Forall P l -> Forall P (py_slice lo hi l).
Proof. intros H. unfold py_slice. by apply Forall_take, Forall_drop. Qed.

Lemma rect_slice2 {A} (r0 r1 c0 c1 : Z) (a : array2 A) :
  rect a -> rect (slice2 r0 r1 c0 c1 a).
Proof.
  unfold rect, slice2; simpl. intros H. apply Forall_fmap.
  eapply Forall_impl; [apply Forall_py_slice, H|].
  intros r Hr; simpl in *. by rewrite length_py_slice, Hr.
Qed.

Lemma shape_slice2 {A} (r0 r1 c0 c1 : Z) (a : array2 A) :
  shape (slice2 r0 r1 c0 c1 a)
  = (slice_bound (nrows a) r1 - slice_bound (nrows a) r0,
     slice_bound (ncols a) c1 - slice_bound (ncols a) c0).
Proof.
  unfold shape, nrows, slice2; simpl.
  by rewrite length_map, length_py_slice.
Qed.

(** A patch that lies inside the image is a [w] by [w] square. *)
Lemma shape_patch {A} (a : array2 A) (w c1 c2 : Z) :
  (0 <= w)%Z ->
  (0 <= c1)%Z -> (c1 + w <= Z.of_nat (nrows a))%Z ->
  (0 <= c2)%Z -> (c2 + w <= Z.of_nat (ncols a))%Z ->
  shape (slice2 c1 (c1 + w) c2 (c2 + w) a) = (Z.to_nat w, Z.to_nat w).
Proof.
  intros. rewrite shape_slice2, !slice_bound_in_range by lia. f_equal; lia.
Qed.

Lemma np_arange_small (stop step : Z) :
  (0 < step)%Z -> (stop <= 0)%Z -> np_arange stop step = Ok [].
Proof.
  intros Hs Hst. unfold np_arange. rewrite decide_False by lia.
  pose proof (Z.div_pos (- stop) step ltac:(lia) ltac:(lia)).
  unfold seqZ. by replace (Z.to_nat (- ((- stop) / step))) with 0%nat by lia.
Qed.

(** The offsets of a positive step are the multiples of the step below
    [stop]. *)
Lemma np_arange_range (stop step : Z) :
  (0 < step)%Z ->
  exists l, np_arange stop step = Ok l
            /\ Forall (fun c => 0 <= c < stop)%Z l
            /\ (0 < stop -> l <> [])%Z.
Proof.
  intros Hs. unfold np_arange. rewrite decide_False by lia.
  eexists; split; [reflexivity|]. split.
  - apply Forall_fmap, Forall_forall. intros i Hi; simpl.
    apply elem_of_seqZ in Hi.
    assert (step * ((- stop) / step) <= - stop
            < step * ((- stop) / step) + step)%Z.
    { pose proof (Z.mod_pos_bound (- stop) step Hs) as Hm.
      rewrite Z.mod_eq in Hm by lia. lia. }
    nia.
  - intros Hpos Hnil. apply fmap_nil_inv in Hnil.
    assert ((- stop) / step < 0)%Z by (apply Z.div_lt_upper_bound; lia).
    unfold seqZ in Hnil. apply fmap_nil_inv in Hnil.
    destruct (Z.to_nat (- ((- stop) / step))) eqn:E; [lia|done].
Qed.

Lemma elem_of_product {A B} (xs : list A) (ys : list B) (x : A) (y : B) :
  (x, y) ∈ product xs ys <-> x ∈ xs /\ y ∈ ys.
Proof.
  unfold product. rewrite list_elem_of_bind. split.
  - intros (x' & H & Hx). apply list_elem_of_bind in H as (y' & H & Hy).
    apply list_elem_of_singleton in H. by injection H as -> ->.
  - intros [Hx Hy]. exists x. split; [|done]. apply list_elem_of_bind.
    exists y. split; [|done]. by apply list_elem_of_singleton.
Qed.

Lemma product_nil_r {A B} (xs : list A) : product xs (@nil B) = [].
Proof.
  destruct (product xs []) as [|[x y] l] eqn:E; [done|].
  assert ((x, y) ∈ product xs (@nil B)) as H by (rewrite E; left).
  apply elem_of_product in H as [_ H]. by apply not_elem_of_nil in H.
Qed.

Lemma py_int_IZR (z : Z) : py_int (IZR z) = z.
Proof.
  assert (Hip : forall k, Int_part (IZR k) = k).
  { intros k. symmetry. apply Int_part_spec. lra. }
  unfold py_int. destruct (Rle_dec 0 (IZR z)); [done|].
  rewrite <- opp_IZR, Hip. lia.
Qed.

Lemma default_step : py_int (IZR 192 * (1 - 0)) = 192%Z.
Proof. rewrite <- (py_int_IZR 192) at 2. f_equal. lra. Qed.
End Patches.

(** ** Running [get_patches], [get_patch_CC] and [get_SNR] *)

Section PatchCorrelation.

Lemma patch_views_small (a : array2 R) (w : Z) (overlap : R) :
  (0 < py_int (IZR w * (1 - overlap)))%Z ->
  (Z.of_nat (nrows a) <= w \/ Z.of_nat (ncols a) <= w)%Z ->
  patch_views a w overlap = Ok [].
Proof.
  intros Hstep Hsmall. unfold patch_views, shape. lazy beta iota zeta.
  destruct Hsmall as [Hx|Hy].
  - rewrite np_arange_small by lia. cbn [rbind].
    destruct (np_arange_range (Z.of_nat (ncols a) - w) _ Hstep)
      as (l & -> & _). done.
  - destruct (np_arange_range (Z.of_nat (nrows a) - w) _ Hstep)
      as (l & -> & _). cbn [rbind].
    rewrite np_arange_small by lia. cbn [rbind]. by rewrite product_nil_r.
Qed.

(** With the default arguments the offsets depend on the shape of the
    image only, and every patch lies inside the image. *)
Lemma patch_views_default (a : array2 R) :
  exists cs : list (Z * Z),
    (forall b : array2 R, shape b = shape a ->
       patch_views b 192 0
       = Ok (map (fun c => slice2 c.1 (c.1 + 192) c.2 (c.2 + 192) b) cs))
    /\ Forall (fun c => 0 <= c.1 /\ c.1 + 192 <= Z.of_nat (nrows a)
                        /\ 0 <= c.2 /\ c.2 + 192 <= Z.of_nat (ncols a))%Z cs
    /\ (192 < nrows a -> 192 < ncols a -> cs <> []).
Proof.
  destruct (np_arange_range (Z.of_nat (nrows a) - 192) 192 ltac:(lia))
    as (X & HX & HXr & HXn).
  destruct (np_arange_range (Z.of_nat (ncols a) - 192) 192 ltac:(lia))
    as (Y & HY & HYr & HYn).
  exists (product X Y). split; [|split].
  - intros b Hb. unfold patch_views. rewrite Hb. unfold shape.
    lazy beta iota zeta. rewrite default_step, HX. cbn [rbind].
    rewrite HY. done.
  - apply Forall_forall. intros [c1 c2] Hc. simpl.
    apply elem_of_product in Hc as [H1 H2].
    rewrite Forall_forall in HXr, HYr.
    specialize (HXr _ H1). specialize (HYr _ H2). lia.
  - intros Hx Hy Hnil.
    destruct X as [|x X]; [by apply HXn; [lia|]|].
    destruct Y as [|y Y]; [by apply HYn; [lia|]|].
    assert ((x, y) ∈ product (x :: X) (y :: Y)) as Hin
      by (apply elem_of_product; split; left).
    rewrite Hnil in Hin. by apply not_elem_of_nil in Hin.
Qed.

Lemma np_array_run (P : list (array2 R)) (sh : nat * nat) (s : store) :
  Forall (fun p => shape p = sh) P ->
  np_array P s = (Ok (seq (length s) (length P)), s ++ P).
Proof.
  intros HP. destruct P as [|p P]; simpl.
  - unfold ret. by rewrite app_nil_r.
  - rewrite decide_True; [done|].
    inversion HP as [|? ? Hp HP']; subst.
    constructor; [done|]. eapply Forall_impl; [exact HP'|]. by intros q ->.
Qed.

Lemma get_patches_run (s : store) (img : loc) (a : array2 R) (w : Z)
    (overlap : R) (P : list (array2 R)) (sh : nat * nat) :
  s !! img = Some a -> patch_views a w overlap = Ok P ->
  Forall (fun p => shape p = sh) P ->
  get_patches img w overlap s = (Ok (seq (length s) (length P)), s ++ P).
Proof.
  intros Hs HP Hsh. unfold get_patches, bind, load, lift.
  rewrite Hs, HP. by eapply np_array_run.
Qed.

Lemma prefix_lookup (s s' : store) (l : loc) (x : array2 R) :
  take (length s) s' = s -> s !! l = Some x -> s' !! l = Some x.
Proof.
  intros Ht Hl. pose proof (lookup_lt_Some _ _ _ Hl).
  rewrite <- Ht in Hl. by rewrite lookup_take_lt in Hl.
Qed.

Section Loop.
Variables (ls n : nat) (P1 P2 : list (array2 R)).
Hypothesis HP1 : Forall (fun p => shape p = (192, 192) /\ rect p) P1.
Hypothesis HP2 : Forall (fun p => shape p = (192, 192) /\ rect p) P2.
Hypothesis Hn1 : length P1 = n.
Hypothesis Hn2 : length P2 = n.

(** The loop of [get_patch_CC] from patch [k] on: it updates the
    copies only and collects their correlations. *)
Lemma cc_loop (m : nat) : forall (k : nat) (s : store),
  k + m = n ->
  (forall i p, k <= i -> P1 !! i = Some p -> s !! (ls + i) = Some p) ->
  (forall i q, k <= i -> P2 !! i = Some q -> s !! (ls + n + i) = Some q) ->
  exists s',
    for_each (fun i =>
                p1 <- lift (py_index (seq ls n) i) ;;
                p2 <- lift (py_index (seq (ls + n) n) i) ;;
                get_CC p1 p2)%st
             (seq k m) s
    = (Ok (zip_with CC_value (drop k P1) (drop k P2)), s')
    /\ take ls s' = take ls s.
Proof using HP1 HP2 Hn1 Hn2.
  induction m as [|m IH]; intros k s Hk H1 H2.
  - exists s. rewrite drop_ge by lia. done.
  - destruct (lookup_lt_is_Some_2 P1 k ltac:(lia)) as [p Hp].
    destruct (lookup_lt_is_Some_2 P2 k ltac:(lia)) as [q Hq].
    rewrite (drop_S _ _ _ Hp), (drop_S _ _ _ Hq).
    pose proof (proj1 (Forall_lookup _ _) HP1 _ _ Hp) as [Hsp Hrp].
    pose proof (proj1 (Forall_lookup _ _) HP2 _ _ Hq) as [Hsq Hrq].
    set (s1 := <[ls + n + k := center q]> (<[ls + k := center p]> s)).
    destruct (IH (S k) s1 ltac:(lia)) as (s' & Hrun & Htake).
    { intros i p' Hi Hp'. pose proof (lookup_lt_Some _ _ _ Hp').
      unfold s1. rewrite !list_lookup_insert_ne by lia.
      apply H1; [lia|done]. }
    { intros i q' Hi Hq'. pose proof (lookup_lt_Some _ _ _ Hq').
      unfold s1. rewrite !list_lookup_insert_ne by lia.
      apply H2; [lia|done]. }
    exists s'. split.
    + simpl. unfold bind at 1. unfold bind at 1. unfold lift at 1.
      unfold py_index at 1. rewrite lookup_seq_lt by lia.
      unfold bind at 1. unfold lift at 1. unfold py_index at 1.
      rewrite lookup_seq_lt by lia.
      rewrite (get_CC_run s (ls + k) (ls + n + k) p q)
        by first [done | by apply (H1 k) | by apply (H2 k)].
      rewrite amul_same_shape
        by (try apply rect_amap; try done; unfold center;
            rewrite !shape_amap; congruence).
      simpl. fold s1. unfold bind at 1. rewrite Hrun. done.
    + rewrite Htake. unfold s1. by rewrite !take_insert_ge by lia.
Qed.
End Loop.

(** [get_patch_CC] on two images of one shape: it returns the mean of
    the correlations of the patches and leaves every array that was in
    the store as it was. *)
Lemma get_patch_CC_run (s : store) (image1 image2 : loc) (a b : array2 R) :
  s !! image1 = Some a -> s !! image2 = Some b ->
  rect a -> rect b -> shape a = shape b ->
  exists s',
    get_patch_CC image1 image2 s = (Ok (patch_CC_value a b), s')
    /\ take (length s) s' = s.
Proof.
  intros H1 H2 Ha Hb Hs.
  destruct (patch_views_default a) as (cs & Hviews & Hcs & _).
  pose proof (Hviews a eq_refl) as HPa.
  pose proof (Hviews b (eq_sym Hs)) as HPb.
  set (P1 := map (fun c : Z * Z => slice2 c.1 (c.1 + 192) c.2 (c.2 + 192) a) cs)
    in *.
  set (P2 := map (fun c : Z * Z => slice2 c.1 (c.1 + 192) c.2 (c.2 + 192) b) cs)
    in *.
  assert (HP1 : Forall (fun p => shape p = (192, 192) /\ rect p) P1).
  { apply Forall_fmap. eapply Forall_impl; [exact Hcs|].
    intros [c1 c2] Hc; simpl in *. split; [|by apply rect_slice2].
    by rewrite shape_patch by lia. }
  assert (HP2 : Forall (fun p => shape p = (192, 192) /\ rect p) P2).
  { apply Forall_fmap. eapply Forall_impl; [exact Hcs|].
    intros [c1 c2] Hc; simpl in *. split; [|by apply rect_slice2].
    injection Hs as Hsr Hsc.
    by rewrite shape_patch by (rewrite ?Hsr, ?Hsc; lia). }
  assert (Hn1 : length P1 = length cs) by (unfold P1; by rewrite length_map).
  assert (Hn2 : length P2 = length cs) by (unfold P2; by rewrite length_map).
  assert (Hsh : forall P : list (array2 R),
             Forall (fun p => shape p = (192, 192) /\ rect p) P ->
             Forall (fun p => shape p = (192, 192)) P).
  { intros P HP. eapply Forall_impl; [exact HP|]. by intros p [? _]. }
  destruct (cc_loop (length s) (length cs) P1 P2 HP1 HP2 Hn1 Hn2
              (length cs) 0 ((s ++ P1) ++ P2) eq_refl)
    as (s' & Hrun & Htake).
  { intros i p _ Hp. pose proof (lookup_lt_Some _ _ _ Hp).
    rewrite lookup_app_l by (rewrite length_app; lia).
    by rewrite lookup_app_r, Nat.add_comm, Nat.add_sub by lia. }
  { intros i q _ Hq.
    rewrite lookup_app_r by (rewrite length_app; lia).
    rewrite length_app, Hn1.
    by replace (length s + length cs + i - (length s + length cs)) with i
      by lia. }
  exists s'. split.
  - unfold get_patch_CC. unfold bind at 1.
    rewrite (get_patches_run s image1 a 192 0 P1 (192, 192)) by auto.
    unfold bind at 1.
    rewrite (get_patches_run (s ++ P1) image2 b 192 0 P2 (192, 192))
      by (auto; by apply lookup_app_l_Some).
    rewrite !length_seq, !length_app, Hn1, Hn2.
    unfold bind at 1. rewrite Hrun. unfold ret, patch_CC_value.
    by rewrite HPa, HPb.
  - rewrite Htake, <- app_assoc. apply take_app_length.
Qed.

Lemma get_SNR_run (s : store) (image1 image2 : loc) (a b : array2 R) :
  s !! image1 = Some a -> s !! image2 = Some b ->
  rect a -> rect b -> shape a = shape b ->
  exists s',
    get_SNR image1 image2 s = (Ok (SNR_value a b), s')
    /\ take (length s) s' = s.
Proof.
  intros H1 H2 Ha Hb Hs.
  destruct (get_patch_CC_run s image1 image2 a b) as (s' & Hrun & Htake);
    try done.
  exists s'. split; [|done]. unfold get_SNR, bind. by rewrite Hrun.
Qed.
End PatchCorrelation.

(** ** Images without patches *)

Section SmallImages.

Lemma np_mean_nil : np_mean [] = NaN.
Proof.
  unfold np_mean, fdiv, fsum, Rzerob; simpl.
  destruct (Req_dec_T 0 0); [done|lra].
Qed.

(** Where C3 fails: on a one-pixel image (the patch size 192 exceeds both
    dimensions) [get_patch_CC] and [get_SNR] raise nothing; they return
    NaN, the mean over no patch. *)
Lemma small_image_not_rejected :
  let img := Array2 1 [[0%R]] in
  (Z.of_nat (nrows img) <= 192)%Z
  /\ (get_patch_CC 0 1 [img; img]).1 = Ok NaN
  /\ (get_SNR 0 1 [img; img]).1 = Ok NaN
  /\ ~ raises (get_patch_CC 0 1 [img; img]).1
  /\ ~ raises (get_SNR 0 1 [img; img]).1.
Proof.
  intros img.
  assert (Hv : patch_views img 192 0 = Ok [])
    by (apply patch_views_small; [rewrite default_step|simpl]; lia).
  assert (Hp : get_patches 0 192 0 [img; img] = (Ok [], [img; img])).
  { unfold get_patches, bind, load, lift. simpl. by rewrite Hv. }
  assert (Hq : get_patches 1 192 0 [img; img] = (Ok [], [img; img])).
  { unfold get_patches, bind, load, lift. simpl. by rewrite Hv. }
  assert (Hcc : get_patch_CC 0 1 [img; img] = (Ok NaN, [img; img])).
  { unfold get_patch_CC. unfold bind at 1. rewrite Hp.
    unfold bind at 1. rewrite Hq. simpl. unfold bind, ret.
    by rewrite np_mean_nil. }
  assert (Hsnr : get_SNR 0 1 [img; img] = (Ok NaN, [img; img])).
  { unfold get_SNR, bind. by rewrite Hcc. }
  split; [unfold img, nrows; simpl; lia|]. rewrite Hcc, Hsnr. simpl.
  repeat split; by intros [e He].
Qed.

(** C3, as the code has it: when the patch size is at least one of the
    dimensions of the image, [get_patches] (with a positive step)
    returns the empty collection and allocates nothing; [get_patch_CC]
    and [get_SNR], whose patch size is 192, then raise no exception and
    return NaN. *)
Theorem small_image_yields_nan (s : store) (image1 image2 : loc)
    (a b : array2 R) (w : Z) (overlap : R) :
  s !! image1 = Some a -> s !! image2 = Some b ->
  rect a -> rect b -> shape a = shape b ->
  (0 < py_int (IZR w * (1 - overlap)))%Z ->
  (Z.of_nat (nrows a) <= w \/ Z.of_nat (ncols a) <= w)%Z ->
  get_patches image1 w overlap s = (Ok [], s)
  /\ ((Z.of_nat (nrows a) <= 192 \/ Z.of_nat (ncols a) <= 192)%Z ->
      (get_patch_CC image1 image2 s).1 = Ok NaN
      /\ (get_SNR image1 image2 s).1 = Ok NaN).
Proof.
  intros H1 H2 Ha Hb Hs Hstep Hsmall. split.
  - unfold get_patches, bind, load, lift. rewrite H1.
    by rewrite patch_views_small.
  - intros H192.
    assert (Hv : patch_CC_value a b = NaN).
    { unfold patch_CC_value.
      rewrite (patch_views_small a 192 0)
        by (try done; rewrite default_step; lia).
      destruct (patch_views b 192 0); [apply np_mean_nil | done]. }
    destruct (get_patch_CC_run s image1 image2 a b) as (s1 & -> & _);
      try done.
    destruct (get_SNR_run s image1 image2 a b) as (s2 & -> & _); try done.
    unfold SNR_value. rewrite Hv. done.
Qed.

Lemma small_image_yields_nan_witness :
  let img := Array2 2 [[1; 2]; [3; 4]]%R in
  get_patches 0 192 0 [img; img] = (Ok [], [img; img])
  /\ ((Z.of_nat (nrows img) <= 192 \/ Z.of_nat (ncols img) <= 192)%Z ->
      (get_patch_CC 0 1 [img; img]).1 = Ok NaN
      /\ (get_SNR 0 1 [img; img]).1 = Ok NaN).
Proof.
  intros img.
  apply (small_image_yields_nan [img; img] 0 1 img img 192 0);
    [reflexivity | reflexivity | repeat constructor | repeat constructor
    | reflexivity | rewrite default_step; lia
    | left; unfold img, nrows; simpl; lia].
Defined.
End SmallImages.

(** ** Frame properties and the denoised SNR *)

Section Estimators.

(** A 193 by 193 image: the smallest one with a patch. *)
Lemma rect_const_image (v : R) :
  rect (Array2 193 (replicate 193 (replicate 193 v))).
Proof. apply Forall_replicate. apply length_replicate. Qed.

(** C10: [get_patch_CC], and so [get_SNR], run to the end on two images
    of one shape and leave both of them, and every other array that
    existed before the call, unchanged: [get_CC] centres the copies that
    [np.array] made. *)
Theorem get_patch_CC_preserves_inputs (s : store) (image1 image2 : loc)
    (a b : array2 R) :
  s !! image1 = Some a -> s !! image2 = Some b ->
  rect a -> rect b -> shape a = shape b ->
  (exists v s',
      get_patch_CC image1 image2 s = (Ok v, s')
      /\ s' !! image1 = Some a /\ s' !! image2 = Some b
      /\ forall l x, s !! l = Some x -> s' !! l = Some x)
  /\ (exists v s',
        get_SNR image1 image2 s = (Ok v, s')
        /\ s' !! image1 = Some a /\ s' !! image2 = Some b
        /\ forall l x, s !! l = Some x -> s' !! l = Some x).
Proof.
  intros H1 H2 Ha Hb Hs. split.
  - destruct (get_patch_CC_run s image1 image2 a b) as (s' & Hrun & Ht);
      try done.
    exists (patch_CC_value a b), s'.
    repeat split; eauto using prefix_lookup.
  - destruct (get_SNR_run s image1 image2 a b) as (s' & Hrun & Ht);
      try done.
    exists (SNR_value a b), s'.
    repeat split; eauto using prefix_lookup.
Qed.

Lemma get_patch_CC_preserves_inputs_witness :
  let a := Array2 193 (replicate 193 (replicate 193 0%R)) in
  let b := Array2 193 (replicate 193 (replicate 193 1%R)) in
  (exists v s',
      get_patch_CC 0 1 [a; b] = (Ok v, s')
      /\ s' !! 0 = Some a /\ s' !! 1 = Some b
      /\ forall l x, [a; b] !! l = Some x -> s' !! l = Some x)
  /\ (exists v s',
        get_SNR 0 1 [a; b] = (Ok v, s')
        /\ s' !! 0 = Some a /\ s' !! 1 = Some b
        /\ forall l x, [a; b] !! l = Some x -> s' !! l = Some x).
Proof.
  intros a b.
  apply (get_patch_CC_preserves_inputs [a; b] 0 1 a b);
    [reflexivity | reflexivity | apply rect_const_image
    | apply rect_const_image | ].
  unfold shape, nrows, a, b; simpl. reflexivity.
Defined.

(** C5: on four images of one shape, [get_denoised_SNR] returns the pair
    [(mixed^2 / raw_snr, raw_snr)], where [raw_snr], [mixed1] and
    [mixed2] are what [get_SNR] returns for (raw even, raw odd),
    (denoised even, raw odd) and (raw even, denoised odd) on the images
    as they were passed in, and [mixed = (mixed1 + mixed2) / 2].  Each of
    the three is the value [SNR_value] of the contents of its two images:
    [CC / (1 - CC)] for the mean [CC] of the correlations of the
    patches. *)
Theorem get_denoised_SNR_formula (s : store)
    (raw_even raw_odd denoised_even denoised_odd : loc)
    (re ro de do : array2 R) :
  s !! raw_even = Some re -> s !! raw_odd = Some ro ->
  s !! denoised_even = Some de -> s !! denoised_odd = Some do ->
  rect re -> rect ro -> rect de -> rect do ->
  shape ro = shape re -> shape de = shape re -> shape do = shape re ->
  let raw_snr := SNR_value re ro in
  let mixed1 := SNR_value de ro in
  let mixed2 := SNR_value re do in
  let mixed := fdiv (fadd mixed1 mixed2) (Fin 2) in
  (get_SNR raw_even raw_odd s).1 = Ok raw_snr
  /\ (get_SNR denoised_even raw_odd s).1 = Ok mixed1
  /\ (get_SNR raw_even denoised_odd s).1 = Ok mixed2
  /\ (get_denoised_SNR raw_even raw_odd denoised_even denoised_odd s).1
     = Ok (fdiv (fmul mixed mixed) raw_snr, raw_snr).
Proof.
  intros H1 H2 H3 H4 Hre Hro Hde Hdo S2 S3 S4. cbv zeta.
  destruct (get_SNR_run s raw_even raw_odd re ro)
    as (s1 & Hrun1 & Ht1); try done.
  destruct (get_SNR_run s denoised_even raw_odd de ro)
    as (sa & -> & _); try done; [congruence|].
  destruct (get_SNR_run s raw_even denoised_odd re do)
    as (sb & -> & _); try done.
  destruct (get_SNR_run s1 denoised_even raw_odd de ro)
    as (s2 & Hrun2 & Ht2); eauto using prefix_lookup; [congruence|].
  assert (forall l x, s !! l = Some x -> s2 !! l = Some x) as Hpre
    by eauto using prefix_lookup.
  destruct (get_SNR_run s2 raw_even denoised_odd re do)
    as (s3 & Hrun3 & Ht3); eauto.
  rewrite Hrun1. repeat split.
  unfold get_denoised_SNR, bind. by rewrite Hrun1, Hrun2, Hrun3.
Qed.
End Estimators.

(** ** [searchsorted] and [fourier_crop] *)

Section Crop.
Local Open Scope R_scope.

(** The binary search keeps the insertion point between [lo] and [hi]. *)
Lemma bisect_left_spec (a : list R) (key : R) :
  sorted a ->
  forall (fuel lo hi : nat),
    (lo <= hi <= length a)%nat -> (hi - lo <= fuel)%nat ->
    (forall i x, a !! i = Some x -> (i < lo)%nat -> x < key) ->
    (forall i x, a !! i = Some x -> (hi <= i)%nat -> key <= x) ->
    insertion_point a key (bisect_left fuel a key lo hi).
Proof.
  intros Hsorted. induction fuel as [|fuel IH]; intros lo hi Hb Hf Hlo Hhi.
  - simpl. assert (hi = lo) as -> by lia. repeat split; [lia|done|done].
  - cbn [bisect_left]. destruct (decide (lo < hi)%nat) as [Hlt|Hge].
    2:{ assert (hi = lo) as -> by lia. repeat split; [lia|done|done]. }
    set (mid := (lo + (hi - lo) / 2)%nat).
    assert (lo <= mid < hi)%nat as Hmid.
    { unfold mid. pose proof (Nat.Div0.div_lt_upper_bound (hi - lo) 2 (hi - lo)).
      lia. }
    destruct (lookup_lt_is_Some_2 a mid ltac:(lia)) as [x Hx]. rewrite Hx.
    destruct (Rlt_dec x key) as [Hxk|Hxk].
    + apply IH; [lia|lia| |done].
      intros i y Hy Hi. pose proof (Hsorted i mid y x ltac:(lia) Hy Hx). lra.
    + apply IH; [lia|lia|done|].
      intros i y Hy Hi. pose proof (Hsorted mid i x y ltac:(lia) Hx Hy). lra.
Qed.

Lemma searchsorted_spec (a : list R) (key : R) :
  sorted a -> insertion_point a key (searchsorted a key).
Proof.
  intros Hs. unfold searchsorted.
  apply bisect_left_spec; [done|lia|lia| |].
  - intros i x _ Hi. lia.
  - intros i x Hx Hi. apply lookup_lt_Some in Hx. lia.
Qed.

Lemma py_slice_nonneg {A} (lo hi : nat) (l : list A) :
  py_slice (Z.of_nat lo) (Z.of_nat hi) l = take (hi - lo) (drop lo l).
Proof.
  unfold py_slice, slice_bound.
  rewrite !(proj2 (Z.ltb_ge _ _)) by lia.
  rewrite !Nat2Z.id.
  destruct (decide (length l <= lo)%nat) as [Hl|Hl].
  - rewrite !drop_ge by lia. by rewrite !take_nil.
  - rewrite (Nat.min_l lo) by lia.
    destruct (decide (hi <= length l)%nat) as [Hh|Hh].
    + by rewrite Nat.min_l by lia.
    + rewrite Nat.min_r by lia.
      by rewrite !take_ge by (rewrite length_drop; lia).
Qed.

Lemma slice2_nonneg {A} (r0 r1 c1 : nat) (a : array2 A) :
  rect a -> (c1 <= ncols a)%nat ->
  slice2 (Z.of_nat r0) (Z.of_nat r1) 0 (Z.of_nat c1) a
  = Array2 c1 (map (take c1) (take (r1 - r0) (drop r0 (rows a)))).
Proof.
  intros Hr Hc. unfold slice2. f_equal.
  - unfold slice_bound. rewrite (proj2 (Z.ltb_ge _ _)) by lia. simpl. lia.
  - rewrite py_slice_nonneg. apply map_ext. intros r.
    change 0%Z with (Z.of_nat 0). rewrite py_slice_nonneg.
    by rewrite Nat.sub_0_r.
Qed.

(** The rows and the columns that [fourier_crop] keeps, in terms of the
    two insertion points. *)
Lemma fourier_crop_run {A} (mic_ft : array2 A) (mic_freqs : array2 R)
    (cutoff : R) (f_h : list R) :
  rect mic_ft -> shape mic_freqs = shape mic_ft ->
  rows mic_freqs !! 0%nat = Some f_h -> length f_h = ncols mic_freqs ->
  (0 < ncols mic_freqs)%nat ->
  sorted f_h -> sorted (vertical_axis (nrows mic_ft) mic_freqs) ->
  exists c_h c_v : nat,
    insertion_point f_h cutoff c_h
    /\ insertion_point (vertical_axis (nrows mic_ft) mic_freqs) cutoff c_v
    /\ (c_h <= ncols mic_ft)%nat
    /\ (2 * c_v <= nrows mic_ft)%nat
    /\ fourier_crop mic_ft mic_freqs cutoff
       = Ok (Array2 c_h (map (take c_h)
                           (take c_v (rows mic_ft)
                            ++ drop (nrows mic_ft - c_v) (rows mic_ft)))).
Proof.
  intros Hr Hs H0 Hlen Hc Hsh Hsv.
  injection Hs as Hsr Hsc.
  set (f_v := vertical_axis (nrows mic_ft) mic_freqs) in *.
  exists (searchsorted f_h cutoff), (searchsorted f_v cutoff).
  pose proof (searchsorted_spec f_h cutoff Hsh) as Hih.
  pose proof (searchsorted_spec f_v cutoff Hsv) as Hiv.
  set (c_h := searchsorted f_h cutoff) in *.
  set (c_v := searchsorted f_v cutoff) in *.
  assert (c_h <= ncols mic_ft)%nat as Hch by (destruct Hih; lia).
  assert (c_v <= nrows mic_ft / 2)%nat as Hcv.
  { destruct Hiv as [Hle _]. unfold f_v, vertical_axis in Hle.
    rewrite length_map, length_take in Hle. lia. }
  assert (2 * c_v <= nrows mic_ft)%nat as Hcv2.
  { pose proof (Nat.Div0.mul_div_le (nrows mic_ft) 2). lia. }
  repeat (split; [done|]).
  unfold fourier_crop, shape. cbv zeta.
  destruct (rows mic_freqs) as [|r rest] eqn:Hrs; [done|].
  injection H0 as ->. cbn [rbind].
  rewrite decide_False by lia. cbn [rbind].
  fold f_v. fold c_h c_v.
  rewrite <- Nat2Z.inj_sub by lia.
  change 0%Z with (Z.of_nat 0).
  rewrite !slice2_nonneg by done.
  unfold vstack. rewrite decide_True by done. cbn [ncols rows].
  rewrite Nat.sub_0_r, drop_0, <- map_app. do 4 f_equal.
  apply take_ge. rewrite length_drop. unfold nrows. lia.
Qed.

(** The band of the first and of the last [c_v] rows, cut to [c_h]
    columns, is a [2 * c_v] by [c_h] array. *)
Lemma crop_shape {A} (a : array2 A) (c_h c_v : nat) :
  rect a -> (c_h <= ncols a)%nat -> (2 * c_v <= nrows a)%nat ->
  let out := Array2 c_h (map (take c_h)
                           (take c_v (rows a)
                            ++ drop (nrows a - c_v) (rows a))) in
  shape out = ((2 * c_v)%nat, c_h) /\ rect out.
Proof.
  intros Hr Hc Hv out. split.
  - unfold out, shape. unfold nrows at 1. cbn [rows ncols].
    rewrite length_map, length_app, length_take, length_drop.
    unfold nrows in *. f_equal. lia.
  - unfold out, rect; cbn [rows ncols]. apply Forall_fmap.
    apply Forall_app. split.
    + eapply Forall_impl; [apply Forall_take, Hr|].
      intros r Hl; simpl in *. rewrite length_take. lia.
    + eapply Forall_impl; [apply Forall_drop, Hr|].
      intros r Hl; simpl in *. rewrite length_take. lia.
Qed.

End Crop.

(** ** The frequency field of [get_mic_freqs] *)

Section Frequencies.
Local Open Scope R_scope.

Lemma Rzerob_false (x : R) : x <> 0 -> Rzerob x = false.
Proof. intros H. unfold Rzerob. by destruct (Req_dec_T x 0). Qed.

Lemma Rzerob_true (x : R) : x = 0 -> Rzerob x = true.
Proof. intros H. unfold Rzerob. by destruct (Req_dec_T x 0). Qed.

Lemma mesh_row (y : R) (fx : list R) :
  map sqrt (zip_with Rplus (map (fun x => x ^ 2) fx)
              (map (fun x => x ^ 2) (map (fun _ => y) fx)))
  = map (fun x => sqrt (x ^ 2 + y ^ 2)) fx.
Proof.
  induction fx as [|x fx IH]; cbn [map zip_with]; [done|]. by rewrite <- IH.
Qed.

(** Entry [(i, j)] of the field is the norm of the [j]-th horizontal and
    the [i]-th vertical frequency. *)
Lemma mesh_rows (fx fy : list R) :
  let '(x, y) := meshgrid fx fy in
  amap sqrt (azip Rplus (asq x) (asq y))
  = Array2 (length fx)
      (map (fun y => map (fun x => sqrt (x ^ 2 + y ^ 2)) fx) fy).
Proof.
  unfold meshgrid, amap, azip, asq, amap; cbn [rows ncols]. f_equal.
  induction fy as [|y fy IH]; [done|].
  cbn [map zip_with]. rewrite IH. f_equal. apply mesh_row.
Qed.

Lemma sqrt_norm_0_r (a b : R) : 0 <= a -> b = 0 -> sqrt (a ^ 2 + b ^ 2) = a.
Proof.
  intros Ha ->. replace (a ^ 2 + 0 ^ 2) with (a * a) by ring.
  by apply sqrt_square.
Qed.

Lemma sqrt_norm_0_l (a b : R) : 0 <= b -> a = 0 -> sqrt (a ^ 2 + b ^ 2) = b.
Proof.
  intros Hb ->. replace (0 ^ 2 + b ^ 2) with (b * b) by ring.
  by apply sqrt_square.
Qed.

Lemma get_mic_freqs_axes {A} (mic : array2 A) (apix : R) :
  0 < apix -> (0 < nrows mic)%nat -> (0 < ncols mic)%nat ->
  exists (f : array2 R) (f_h : list R),
    get_mic_freqs mic apix = Ok f
    /\ rect f
    /\ shape f = (nrows mic, (ncols mic / 2 + 1)%nat)
    /\ rows f !! 0%nat = Some f_h
    /\ length f_h = ncols f
    /\ (forall j x, f_h !! j = Some x ->
                    x = INR j * (1 / (INR (ncols mic) * apix)))
    /\ (forall i x, vertical_axis (nrows mic) f !! i = Some x ->
                    x = INR i * (1 / (INR (nrows mic) * apix))).
Proof.
  intros Hapix Hnx Hny.
  assert (0 < INR (nrows mic)) as Hrx by (apply lt_0_INR; lia).
  assert (0 < INR (ncols mic)) as Hry by (apply lt_0_INR; lia).
  set (vx := 1 / (INR (ncols mic) * apix)).
  set (vy := 1 / (INR (nrows mic) * apix)).
  assert (0 < vx) as Hvx.
  { unfold vx. apply Rdiv_lt_0_compat; [lra|]. by apply Rmult_lt_0_compat. }
  assert (0 < vy) as Hvy.
  { unfold vy. apply Rdiv_lt_0_compat; [lra|]. by apply Rmult_lt_0_compat. }
  set (fx := map (fun k => IZR k * vx) (seqZ 0 (Z.of_nat (ncols mic) / 2 + 1))).
  set (fy := map (fun k => IZR k * vy)
               (seqZ 0 ((Z.of_nat (nrows mic) - 1) / 2 + 1)
                ++ seqZ (- (Z.of_nat (nrows mic) / 2))
                     (Z.of_nat (nrows mic) / 2))).
  assert (Hlx : length fx = (ncols mic / 2 + 1)%nat).
  { unfold fx. rewrite length_map, length_seqZ.
    rewrite <- (Nat2Z.inj_div _ 2). lia. }
  assert (Hly : length fy = nrows mic).
  { unfold fy. rewrite length_map, length_app, !length_seqZ.
    Z.to_euclidean_division_equations. lia. }
  assert (Hfx : forall j x, fx !! j = Some x -> x = INR j * vx).
  { intros j x Hj. unfold fx in Hj. rewrite list_lookup_fmap in Hj.
    destruct (seqZ _ _ !! j) as [k|] eqn:Hk; [|done].
    apply lookup_seqZ in Hk as [-> _]. injection Hj as <-.
    by rewrite Z.add_0_l, <- INR_IZR_INZ. }
  assert (Hfy : forall i y, (i < nrows mic / 2)%nat -> fy !! i = Some y ->
                            y = INR i * vy).
  { intros i y Hi Hy. unfold fy in Hy. rewrite list_lookup_fmap in Hy.
    rewrite lookup_app_l in Hy.
    2:{ rewrite length_seqZ. apply Nat2Z.inj_lt in Hi.
        rewrite Nat2Z.inj_div in Hi. simpl in Hi.
        Z.to_euclidean_division_equations. lia. }
    destruct (seqZ _ _ !! i) as [k|] eqn:Hk; [|done].
    apply lookup_seqZ in Hk as [-> _]. injection Hy as <-.
    by rewrite Z.add_0_l, <- INR_IZR_INZ. }
  assert (Hx0 : fx !! 0%nat = Some 0).
  { unfold fx. rewrite list_lookup_fmap, lookup_seqZ_lt.
    - simpl. f_equal. change (0 + Z.of_nat 0)%Z with 0%Z. apply Rmult_0_l.
    - Z.to_euclidean_division_equations. lia. }
  assert (Hy0 : fy !! 0%nat = Some 0).
  { unfold fy. rewrite list_lookup_fmap, lookup_app_l, lookup_seqZ_lt.
    - simpl. f_equal. change (0 + Z.of_nat 0)%Z with 0%Z. apply Rmult_0_l.
    - Z.to_euclidean_division_equations. lia.
    - rewrite length_seqZ. Z.to_euclidean_division_equations. lia. }
  exists (Array2 (length fx)
            (map (fun y => map (fun x => sqrt (x ^ 2 + y ^ 2)) fx) fy)),
         (map (fun x => sqrt (x ^ 2 + 0 ^ 2)) fx).
  split; [|split; [|split; [|split; [|split; [|split]]]]].
  - unfold get_mic_freqs, shape, rfftfreq, fftfreq. cbv zeta.
    rewrite !Rzerob_false by (apply Rgt_not_eq; by apply Rmult_lt_0_compat).
    cbn [rbind]. fold vx vy. fold fx fy.
    pose proof (mesh_rows fx fy) as Hm.
    destruct (meshgrid fx fy) as [x y]. by rewrite Hm.
  - unfold rect; cbn [rows ncols]. apply Forall_fmap, Forall_forall.
    intros y _. simpl. by rewrite length_map.
  - unfold shape, nrows; cbn [rows ncols]. by rewrite length_map, Hly, Hlx.
  - cbn [rows]. rewrite list_lookup_fmap, Hy0. done.
  - cbn [ncols]. by rewrite length_map.
  - intros j x Hj. rewrite list_lookup_fmap in Hj.
    destruct (fx !! j) as [x0|] eqn:Hx; [|done]. injection Hj as <-.
    apply Hfx in Hx as ->. apply sqrt_norm_0_r; [|done].
    apply Rmult_le_pos; [apply pos_INR|lra].
  - intros i x Hi. unfold vertical_axis in Hi. cbn [rows] in Hi.
    rewrite list_lookup_fmap in Hi.
    destruct (take _ _ !! i) as [r|] eqn:Hr; [|done]. injection Hi as <-.
    pose proof (lookup_lt_Some _ _ _ Hr) as Hlt.
    rewrite length_take in Hlt.
    rewrite lookup_take_lt in Hr by lia.
    rewrite list_lookup_fmap in Hr.
    destruct (fy !! i) as [y|] eqn:Hy; [|done]. injection Hr as <-.
    apply Hfy in Hy as ->; [|lia].
    destruct fx as [|x0 fx']; [done|]. injection Hx0 as ->.
    cbn [map nth]. apply sqrt_norm_0_l; [|done].
    apply Rmult_le_pos; [apply pos_INR|lra].
Qed.
End Frequencies.

(** ** [bin_mic] *)

Section Bin.
Local Open Scope R_scope.

Lemma axis_sorted (l : list R) (v : R) :
  0 <= v -> (forall j x, l !! j = Some x -> x = INR j * v) -> sorted l.
Proof.
  intros Hv Hl i j x y Hij Hx Hy.
  rewrite (Hl _ _ Hx), (Hl _ _ Hy).
  apply Rmult_le_compat_r; [done|]. by apply le_INR.
Qed.



Lemma insertion_point_above (l : list R) (key : R) (c i : nat) (x : R) :
  insertion_point l key c -> l !! i = Some x -> x < key -> (i < c)%nat.
Proof.
  intros (_ & _ & Hge) Hx Hlt.
  destruct (decide (i < c)%nat) as [|Hn]; [done|exfalso].
  pose proof (Hge _ _ Hx ltac:(lia)). lra.
Qed.

Lemma rfft2_run (mic : array2 R) :
  (0 < nrows mic)%nat -> (0 < ncols mic)%nat ->
  exists g, rfft2 mic = Ok g /\ rect g
            /\ shape g = (nrows mic, (ncols mic / 2 + 1)%nat).
Proof.
  intros Hx Hy. unfold rfft2. rewrite decide_False by lia.
  eexists. split; [reflexivity|]. split.
  - unfold rect, transpose; cbn [rows ncols].
    apply Forall_fmap, Forall_forall. intros j _. simpl.
    by rewrite !length_map, length_seq.
  - unfold shape, nrows, transpose; cbn [rows ncols].
    by rewrite length_map, length_seq.
Qed.

Lemma rect_azip {A B C} (f : A -> B -> C) (a : array2 A) (b : array2 B) :
  rect a -> rect b -> shape a = shape b ->
  rect (azip f a b) /\ shape (azip f a b) = shape a.
Proof.
  intros Ha Hb Hs. injection Hs as Hn Hc.
  unfold rect, shape, nrows, azip in *; cbn [rows ncols]. split.
  - clear Hn. revert Ha Hb. generalize (rows b). rewrite Hc.
    generalize (ncols b).
    intros c rb Ha. revert rb.
    induction Ha as [|ra rsa Hra Ha IH]; intros [|r rb] Hb; simpl;
      [done|done|done|].
    inversion Hb; subst. constructor; [|by apply IH].
    rewrite length_zip_with. lia.
  - rewrite length_zip_with. f_equal. lia.
Qed.

(** The spectrum after the optional low-pass filter has the shape of
    the spectrum. *)
Lemma filter_run (g0 : array2 complex) (f : array2 R) (cutoff : R)
    (lp : bool) (bwo : nat) :
  rect g0 -> rect f -> shape f = shape g0 ->
  exists g,
    (if lp then imul_real g0 (amap (butterworth cutoff bwo) f) else Ok g0)
    = Ok g
    /\ rect g /\ shape g = shape g0.
Proof.
  intros Hg Hf Hs. destruct lp; [|by exists g0].
  unfold imul_real.
  set (b := amap (butterworth cutoff bwo) f).
  assert (rect b) as Hra by (by apply rect_amap).
  assert (shape b = shape g0) as Hsa by (unfold b; by rewrite shape_amap).
  assert (nrows g0 = nrows b /\ ncols g0 = ncols b) as [-> ->]
    by (unfold shape in Hsa; split; congruence).
  rewrite broadcast_to_same by done. cbn [rbind].
  eexists. split; [reflexivity|].
  by apply rect_azip.
Qed.

Lemma irfft2_run (g : array2 complex) :
  (0 < nrows g)%nat -> (1 < ncols g)%nat ->
  exists out, irfft2 g = Ok out
              /\ shape out = (nrows g, (2 * (ncols g - 1))%nat).
Proof.
  intros Hx Hy. unfold irfft2. rewrite decide_False by lia.
  eexists. split; [reflexivity|].
  unfold shape, nrows, transpose; cbn [rows ncols].
  by rewrite !length_map, length_seq.
Qed.

(** [bin_mic] without a precomputed field, step by step: the field, the
    filtered spectrum, the two insertion points and the crop that is
    handed to [irfft2]. *)
Lemma bin_mic_run (mic : array2 R) (apix cutoff : R) (lp : bool)
    (bwo : nat) :
  0 < apix -> (0 < nrows mic)%nat -> (0 < ncols mic)%nat ->
  exists (f : array2 R) (f_h : list R) (g0 g : array2 complex)
         (c_h c_v : nat),
    get_mic_freqs mic apix = Ok f
    /\ rows f !! 0%nat = Some f_h
    /\ length f_h = (ncols mic / 2 + 1)%nat
    /\ length (vertical_axis (nrows mic) f) = (nrows mic / 2)%nat
    /\ (forall j x, f_h !! j = Some x ->
                    x = INR j * (1 / (INR (ncols mic) * apix)))
    /\ (forall i x, vertical_axis (nrows mic) f !! i = Some x ->
                    x = INR i * (1 / (INR (nrows mic) * apix)))
    /\ rfft2 mic = Ok g0
    /\ (if lp then imul_real g0 (amap (butterworth cutoff bwo) f)
        else Ok g0) = Ok g
    /\ rect g
    /\ shape g = (nrows mic, (ncols mic / 2 + 1)%nat)
    /\ insertion_point f_h cutoff c_h
    /\ insertion_point (vertical_axis (nrows mic) f) cutoff c_v
    /\ let crop :=
         Array2 c_h (map (take c_h)
                       (take c_v (rows g) ++ drop (nrows mic - c_v) (rows g)))
       in
       fourier_crop g f cutoff = Ok crop
       /\ shape crop = ((2 * c_v)%nat, c_h)
       /\ bin_mic mic apix cutoff None lp bwo = irfft2 crop.
Proof.
  intros Hapix Hx Hy.
  destruct (get_mic_freqs_axes mic apix Hapix Hx Hy)
    as (f & f_h & Hf & Hrf & Hsf & Hf0 & Hlen & Hh & Hv).
  destruct (rfft2_run mic Hx Hy) as (g0 & Hg0 & Hrg0 & Hsg0).
  destruct (filter_run g0 f cutoff lp bwo Hrg0 Hrf ltac:(congruence))
    as (g & Hg & Hrg & Hsg).
  rewrite Hsg0 in Hsg.
  assert (nrows g = nrows mic /\ ncols g = (ncols mic / 2 + 1)%nat
          /\ nrows f = nrows mic /\ ncols f = (ncols mic / 2 + 1)%nat)
    as (Hng & Hcg & Hnf & Hcf)
    by (unfold shape in *; repeat split; congruence).
  assert (0 <= 1 / (INR (ncols mic) * apix)) as Hvx.
  { apply Rlt_le, Rdiv_lt_0_compat; [lra|].
    apply Rmult_lt_0_compat; [apply lt_0_INR; lia|done]. }
  assert (0 <= 1 / (INR (nrows mic) * apix)) as Hvy.
  { apply Rlt_le, Rdiv_lt_0_compat; [lra|].
    apply Rmult_lt_0_compat; [apply lt_0_INR; lia|done]. }
  destruct (fourier_crop_run g f cutoff f_h)
    as (c_h & c_v & Hch & Hcv & Hch' & Hcv' & Hcrop); try done.
  { congruence. }
  { lia. }
  { by apply (axis_sorted _ (1 / (INR (ncols mic) * apix))). }
  { rewrite Hng. by apply (axis_sorted _ (1 / (INR (nrows mic) * apix))). }
  destruct (crop_shape g c_h c_v Hrg Hch' Hcv') as [Hshape _].
  rewrite Hng in *.
  exists f, f_h, g0, g, c_h, c_v.
  repeat (split; [first [done | congruence]|]).
  split.
  { unfold vertical_axis. rewrite length_map, length_take.
    fold (nrows f). rewrite Hnf.
    pose proof (Nat.Div0.div_le_upper_bound (nrows mic) 2 (nrows mic)).
    lia. }
  repeat (split; [first [done | congruence]|]).
  unfold bin_mic. cbn [rbind]. rewrite Hf. cbn [rbind].
  rewrite Hg0. cbn [rbind]. rewrite Hg. cbn [rbind].
  by rewrite Hcrop.
Qed.

Lemma array_bool_ambiguous (f : array2 R) :
  rect f -> (2 <= size f)%nat -> array_bool f = Err ValueError.
Proof.
  intros Hr Hs. rewrite <- length_elems in Hs by done. unfold array_bool.
  destruct (elems f) as [|x [|y l]]; simpl in Hs; [lia|lia|done].
Qed.

(** With a field of two or more entries, [if mic_freqs:] raises. *)
Lemma bin_mic_some_raises (mic : array2 R) (apix cutoff : R)
    (f : array2 R) (lp : bool) (bwo : nat) :
  rect f -> (2 <= size f)%nat ->
  bin_mic mic apix cutoff (Some f) lp bwo = Err ValueError.
Proof.
  intros Hr Hs. unfold bin_mic. by rewrite array_bool_ambiguous.
Qed.




End Bin.

(** ** [fourier_crop] and [bin_mic] on a 4 by 4 micrograph *)

Section Micrograph.
Local Open Scope R_scope.



(** C1, where the code fails it: for a 4 by 4 micrograph, [bin_mic]
    without a field succeeds, but with the field that [get_mic_freqs]
    computes for that micrograph (12 entries) the test [if mic_freqs:]
    raises ValueError, whatever the other arguments are. *)
Theorem bin_mic_precomputed_field_raises :
  let mic := Array2 4 (replicate 4 (replicate 4 1)) in
  exists f : array2 R,
    get_mic_freqs mic 1 = Ok f
    /\ bin_mic mic 1 (3 / 8) (Some f) true 5 = Err ValueError
    /\ is_ok (bin_mic mic 1 (3 / 8) None true 5).
Proof.
  intros mic.
  assert (nrows mic = 4%nat) as Hn by reflexivity.
  assert (ncols mic = 4%nat) as Hc by reflexivity.
  destruct (bin_mic_run mic 1 (3 / 8) true 5)
    as (f & f_h & g0 & g & c_h & c_v & Hf & Hf0 & Hlh & Hlv & Hh & Hv
        & Hg0 & Hg & Hrg & Hsg & Hch & Hcv & Hcrop & Hshape & Hbin);
    [lra | lia | lia |].
  cbv zeta in Hcrop, Hshape, Hbin. rewrite Hn, Hc in *.
  destruct (get_mic_freqs_axes mic 1) as (f' & _ & Hf' & Hrf & Hsf & _);
    [lra | lia | lia |].
  assert (f' = f) as -> by congruence.
  exists f. split; [done|]. split.
  - apply bin_mic_some_raises; [done|].
    assert (shape f = (4, 3)%nat) as Hs43 by (rewrite Hsf; reflexivity).
    unfold shape in Hs43. injection Hs43 as Hnf Hcf.
    unfold size. rewrite Hnf, Hcf. lia.
  - rewrite Hbin.
    destruct (lookup_lt_is_Some_2 f_h 1) as [x1 Hx1];
      [rewrite Hlh; simpl; lia|].
    destruct (lookup_lt_is_Some_2 (vertical_axis 4 f) 0) as [y0 Hy0];
      [rewrite Hlv; simpl; lia|].
    assert (1 < c_h)%nat as Hc1.
    { apply (insertion_point_above f_h (3 / 8) c_h 1 x1 Hch Hx1).
      rewrite (Hh _ _ Hx1). simpl. lra. }
    assert (0 < c_v)%nat as Hc0.
    { apply (insertion_point_above _ (3 / 8) c_v 0 y0 Hcv Hy0).
      rewrite (Hv _ _ Hy0). simpl. lra. }
    apply (f_equal fst) in Hshape. unfold shape in Hshape.
    cbn [fst] in Hshape.
    match goal with |- is_ok (irfft2 ?c) =>
      destruct (irfft2_run c) as (out & -> & _) end.
    + rewrite Hshape. lia.
    + done.
    + by exists out.
Qed.



End Micrograph.


(** ** [get_denoised_SNR] on four different images

    Images of 193 by 193 pixels that are zero except for five entries [P]
    at the start of the first row; their one patch is the 192 by 192
    block at the origin. *)

Section SparseImages.
Local Open Scope R_scope.

Local Abbreviation sparse_image P :=
  (Array2 193 ((P ++ replicate 188 0) :: replicate 192 (replicate 193 0))).
Local Abbreviation sparse_patch P :=
  (Array2 192 ((P ++ replicate 187 0) :: replicate 191 (replicate 192 0))).

Lemma rect_sparse_image (P : list R) :
  length P = 5%nat -> rect (sparse_image P) /\ shape (sparse_image P) = (193, 193)%nat.
Proof.
  intros HP. split.
  - constructor.
    + cbn [ncols]. rewrite length_app, length_replicate, HP. reflexivity.
    + apply Forall_replicate, length_replicate.
  - unfold shape, nrows. cbn [rows ncols length].
    by rewrite length_replicate.
Qed.

Lemma rect_sparse_patch (P : list R) :
  length P = 5%nat -> rect (sparse_patch P) /\ shape (sparse_patch P) = (192, 192)%nat.
Proof.
  intros HP. split.
  - constructor.
    + cbn [ncols]. rewrite length_app, length_replicate, HP. reflexivity.
    + apply Forall_replicate, length_replicate.
  - unfold shape, nrows. cbn [rows ncols length].
    by rewrite length_replicate.
Qed.

Lemma sparse_image_patches (P : list R) :
  length P = 5%nat ->
  patch_views (sparse_image P) 192 0 = Ok [sparse_patch P].
Proof.
  intros HP. destruct (rect_sparse_image P HP) as [Hr Hs].
  unfold patch_views. rewrite Hs. lazy beta iota zeta. rewrite default_step.
  transitivity (Ok [slice2 (Z.of_nat 0) (Z.of_nat 192) 0 (Z.of_nat 192)
                      (sparse_image P)]); [reflexivity|].
  do 2 f_equal. rewrite slice2_nonneg by (try done; cbn [ncols]; lia).
  f_equal. cbn [rows]. rewrite drop_0, Nat.sub_0_r.
  change (take 192 ((P ++ replicate 188 0) :: replicate 192 (replicate 193 0)))
    with ((P ++ replicate 188 0) :: take 191 (replicate 192 (replicate 193 0))).
  rewrite take_replicate. cbn [map]. rewrite fmap_replicate, take_replicate.
  f_equal.
  assert (192 = length P + 187)%nat as -> by (rewrite HP; reflexivity).
  rewrite take_app_add', take_replicate by done. done.
Qed.

Lemma concat_replicate_zeros (m c : nat) :
  concat (replicate m (replicate c 0)) = replicate (m * c) 0.
Proof.
  induction m as [|m IH]; [done|].
  cbn [replicate concat]. rewrite IH.
  change (S m * c)%nat with (c + m * c)%nat. by rewrite replicate_add.
Qed.

Lemma elems_sparse_patch (P : list R) :
  elems (sparse_patch P) = P ++ replicate (187 + 191 * 192) 0.
Proof.
  unfold elems. cbn [rows concat]. rewrite concat_replicate_zeros.
  by rewrite <- app_assoc, <- replicate_add.
Qed.

Lemma Rsum_centered (l1 l2 : list R) (m n : R) :
  length l1 = length l2 ->
  Rsum (zip_with Rmult (map (fun x => x - m) l1) (map (fun x => x - n) l2))
  = Rsum (zip_with Rmult l1 l2) - n * Rsum l1 - m * Rsum l2
    + INR (length l1) * (m * n).
Proof.
  revert l2. induction l1 as [|x l1 IH]; intros [|y l2] Hlen;
    try discriminate.
  - simpl. lra.
  - injection Hlen as Hlen. specialize (IH l2 Hlen).
    change (length (x :: l1)) with (S (length l1)). rewrite S_INR.
    cbn [map zip_with].
    change (Rsum ((x - m) * (y - n) :: ?l)) with ((x - m) * (y - n) + Rsum l).
    cbn [map zip_with] in IH |- *.
    unfold Rsum in *. cbn [foldr]. rewrite IH. lra.
Qed.

Lemma Rsum_const (c : R) (l : list R) :
  Forall (eq c) l -> Rsum l = INR (length l) * c.
Proof.
  induction 1 as [|x l <- _ IH]; [simpl; lra|].
  change (Rsum (c :: l)) with (c + Rsum l).
  change (length (c :: l)) with (S (length l)). rewrite S_INR, IH. lra.
Qed.

Lemma Rsum_zero_tail (P : list R) (K : nat) :
  Rsum (P ++ replicate K 0) = Rsum P.
Proof.
  rewrite Rsum_app, (Rsum_const 0 (replicate K 0))
    by (by apply Forall_replicate). lra.
Qed.

Lemma Rsum_product_zero_tail (P Q : list R) (K : nat) :
  length P = length Q ->
  Rsum (zip_with Rmult (P ++ replicate K 0) (Q ++ replicate K 0))
  = Rsum (zip_with Rmult P Q).
Proof.
  intros Hlen. rewrite zip_with_app by done.
  rewrite zip_with_replicate, Rsum_app.
  rewrite (Rsum_const (0 * 0) (replicate K (0 * 0)))
    by (by apply Forall_replicate). lra.
Qed.

(** The correlation of two patches with two entries 1 each, of which [t]
    coincide. *)
Lemma CC_value_sparse (P Q : list R) (t : R) :
  length P = 5%nat -> length Q = 5%nat ->
  Rsum P = 2 -> Rsum Q = 2 ->
  Rsum (zip_with Rmult P P) = 2 -> Rsum (zip_with Rmult Q Q) = 2 ->
  Rsum (zip_with Rmult P Q) = t ->
  CC_value (sparse_patch P) (sparse_patch Q)
  = Fin ((t - 4 / 36864) / (2 - 4 / 36864)).
Proof.
  intros HP HQ HsP HsQ HPP HQQ HPQ.
  destruct (rect_sparse_patch P HP) as [HrP HshP].
  destruct (rect_sparse_patch Q HQ) as [HrQ HshQ].
  assert (INR (size (sparse_patch P)) = 36864) as HNP.
  { unfold size, nrows. cbn [rows ncols length]. rewrite length_replicate.
    rewrite mult_INR, !INR_IZR_INZ.
    change (Z.of_nat 192) with 192%Z. lra. }
  assert (INR (size (sparse_patch Q)) = 36864) as HNQ.
  { unfold size, nrows. cbn [rows ncols length]. rewrite length_replicate.
    rewrite mult_INR, !INR_IZR_INZ.
    change (Z.of_nat 192) with 192%Z. lra. }
  assert (forall L : list R, length L = 5%nat ->
            INR (length (L ++ replicate (187 + 191 * 192) 0)) = 36864) as HN.
  { intros L HL. rewrite length_app, length_replicate, HL.
    rewrite !plus_INR, mult_INR, !INR_IZR_INZ.
    change (Z.of_nat 5) with 5%Z. change (Z.of_nat 187) with 187%Z.
    change (Z.of_nat 191) with 191%Z. change (Z.of_nat 192) with 192%Z.
    lra. }
  assert (forall L L' : list R, length L = 5%nat -> length L' = 5%nat ->
            length (L ++ replicate (187 + 191 * 192) 0)
            = length (L' ++ replicate (187 + 191 * 192) 0)) as Hlen
    by (intros L L' HL HL'; by rewrite !length_app, HL, HL').
  unfold CC_value.
  rewrite asum_azip
    by (try apply rect_center; try done; rewrite !shape_center; congruence).
  rewrite !asum_asq_elems by (by apply rect_center).
  unfold center. rewrite !elems_amap.
  unfold amean. rewrite !asum_elems, HNP, HNQ, !elems_sparse_patch.
  rewrite !Rsum_centered by (by apply Hlen).
  rewrite !HN by done.
  rewrite !Rsum_zero_tail, !Rsum_product_zero_tail by congruence.
  rewrite HsP, HsQ, HPP, HQQ, HPQ.
  set (S := 2 - 4 / 36864).
  replace (2 - 2 / 36864 * 2 - 2 / 36864 * 2
           + 36864 * (2 / 36864 * (2 / 36864))) with S by (unfold S; field).
  replace (t - 2 / 36864 * 2 - 2 / 36864 * 2
           + 36864 * (2 / 36864 * (2 / 36864))) with (t - 4 / 36864) by field.
  assert (0 < S) as HS by (unfold S; lra).
  rewrite sqrt_sqrt by lra. unfold fdiv. by rewrite Rzerob_false by lra.
Qed.

Lemma SNR_value_sparse (P Q : list R) (c : R) :
  length P = 5%nat -> length Q = 5%nat ->
  CC_value (sparse_patch P) (sparse_patch Q) = Fin c -> c <> 1 ->
  SNR_value (sparse_image P) (sparse_image Q) = Fin (c / (1 - c)).
Proof.
  intros HP HQ Hc Hne. unfold SNR_value, patch_CC_value.
  rewrite !sparse_image_patches by done. cbn [zip_with]. rewrite Hc.
  assert (np_mean [Fin c] = Fin c) as ->.
  { unfold np_mean, fsum. cbn [foldr length]. unfold fadd, fdiv.
    replace (INR 1) with 1 by (simpl; lra).
    rewrite Rzerob_false by lra. f_equal. field. }
  unfold fsub, fneg, fadd, fdiv.
  rewrite Rzerob_false by lra. reflexivity.
Qed.

Lemma get_denoised_SNR_formula_witness :
  let re := sparse_image [1; 1; 0; 0; 0] in
  let ro := sparse_image [0; 0; 1; 1; 0] in
  let de := sparse_image [0; 1; 1; 0; 0] in
  let do := sparse_image [0; 0; 0; 1; 1] in
  let s := [re; ro; de; do] in
  (get_SNR 0 1 s).1 = Ok (Fin (- 1 / 18432))
  /\ (get_SNR 2 1 s).1 = Ok (Fin (9215 / 9216))
  /\ (get_SNR 0 3 s).1 = Ok (Fin (- 1 / 18432))
  /\ (get_denoised_SNR 0 1 2 3 s).1
     = Ok (Fin (- 339628041 / 73728), Fin (- 1 / 18432)).
Proof.
  intros re ro de do s.
  destruct (rect_sparse_image [1; 1; 0; 0; 0] eq_refl) as [Hre Hsre].
  destruct (rect_sparse_image [0; 0; 1; 1; 0] eq_refl) as [Hro Hsro].
  destruct (rect_sparse_image [0; 1; 1; 0; 0] eq_refl) as [Hde Hsde].
  destruct (rect_sparse_image [0; 0; 0; 1; 1] eq_refl) as [Hdo Hsdo].
  assert (SNR_value re ro = Fin (- 1 / 18432)) as Hraw.
  { unfold re, ro.
    rewrite (SNR_value_sparse _ _ ((0 - 4 / 36864) / (2 - 4 / 36864)));
      [f_equal; field | done | done | | lra].
    apply CC_value_sparse; try done; simpl; lra. }
  assert (SNR_value de ro = Fin (9215 / 9216)) as Hm1.
  { unfold de, ro.
    rewrite (SNR_value_sparse _ _ ((1 - 4 / 36864) / (2 - 4 / 36864)));
      [f_equal; field | done | done | | lra].
    apply CC_value_sparse; try done; simpl; lra. }
  assert (SNR_value re do = Fin (- 1 / 18432)) as Hm2.
  { unfold re, do.
    rewrite (SNR_value_sparse _ _ ((0 - 4 / 36864) / (2 - 4 / 36864)));
      [f_equal; field | done | done | | lra].
    apply CC_value_sparse; try done; simpl; lra. }
  pose proof (get_denoised_SNR_formula s 0 1 2 3 re ro de do
                eq_refl eq_refl eq_refl eq_refl Hre Hro Hde Hdo
                (eq_trans Hsro (eq_sym Hsre)) (eq_trans Hsde (eq_sym Hsre))
                (eq_trans Hsdo (eq_sym Hsre))) as Hformula.
  cbv zeta in Hformula. rewrite Hraw, Hm1, Hm2 in Hformula.
  destruct Hformula as (H1 & H2 & H3 & H4).
  split; [exact H1|]. split; [exact H2|]. split; [exact H3|].
  rewrite H4. unfold fadd, fmul, fdiv.
  rewrite (Rzerob_false 2), (Rzerob_false (-1 / 18432)) by lra.
  do 3 f_equal. field.
Defined.
End SparseImages.

(** * Further properties of [utils.py] *)

(** ** More on [next32] *)

Section Next32More.
Local Open Scope Z_scope.

(** X1: [next32] adds at most 31, changes no multiple of 32 that it has
    produced, and commutes with adding 32. *)
Theorem next32_step (n : Z) :
  next32 n < n + 32
  /\ next32 (next32 n) = next32 n
  /\ next32 (n + 32) = next32 n + 32.
Proof.
  rewrite !next32_closed_form.
  repeat split; Z.to_euclidean_division_equations; lia.
Qed.
End Next32More.

(** ** More on [get_CC] *)

Section CrossCorrelationMore.
Local Open Scope R_scope.

(** The value of [get_CC] on two arrays of one shape. *)
Lemma get_CC_value (s : store) (image1 image2 : loc) (a b : array2 R) :
  s !! image1 = Some a -> s !! image2 = Some b ->
  rect a -> rect b -> shape a = shape b ->
  get_CC image1 image2 s
  = (Ok (CC_value a b), <[image2 := center b]> (<[image1 := center a]> s)).
Proof.
  intros H1 H2 Ha Hb Hs.
  rewrite (get_CC_run s image1 image2 a b) by done.
  rewrite amul_same_shape
    by (try apply rect_center; try done; rewrite !shape_center; done).
  done.
Qed.

(** X3: [get_CC] is symmetric: with the arguments exchanged it returns
    the same value and leaves the same store. *)
Theorem get_CC_symmetric (s : store) (image1 image2 : loc) (a b : array2 R) :
  s !! image1 = Some a -> s !! image2 = Some b ->
  rect a -> rect b -> shape a = shape b ->
  get_CC image1 image2 s = get_CC image2 image1 s.
Proof.
  intros H1 H2 Ha Hb Hs.
  rewrite (get_CC_value s image1 image2 a b) by done.
  rewrite (get_CC_value s image2 image1 b a) by done.
  pose proof (rect_center a Ha) as Hca. pose proof (rect_center b Hb) as Hcb.
  assert (shape (center a) = shape (center b)) as Hsc
    by (by rewrite !shape_center).
  f_equal.
  - unfold CC_value. rewrite !asum_azip by done.
    rewrite (Rmult_comm (sqrt (asum (asq (center b))))).
    do 3 f_equal. rewrite <- zip_with_flip. f_equal.
    apply zip_with_ext; [|done|done].
    intros x y. apply Rmult_comm.
  - rewrite list_insert_insert. destruct (decide (image2 = image1)) as [->|Hne].
    + assert (b = a) as -> by congruence. symmetry.
      apply list_insert_insert_eq.
    + done.
Qed.

Lemma get_CC_symmetric_witness :
  let a := Array2 2 [[1; 2]] in
  let b := Array2 2 [[3; 5]] in
  get_CC 0 1 [a; b] = get_CC 1 0 [a; b].
Proof.
  intros a b.
  apply (get_CC_symmetric [a; b] 0 1 a b);
    [reflexivity | reflexivity | repeat constructor | repeat constructor
    | reflexivity].
Defined.

End CrossCorrelationMore.

(** ** More on [get_patches] and [get_patch_CC] *)

Section PatchesMore.






End PatchesMore.

(** ** More on [get_patch_CC], [get_SNR] and [get_denoised_SNR] *)

Section EstimatorsMore.
Local Open Scope R_scope.

(** The patches of the default call are 192 by 192 arrays. *)
Lemma patch_views_shapes (a : array2 R) (P : list (array2 R)) :
  rect a -> patch_views a 192 0 = Ok P ->
  Forall (fun p => shape p = (192, 192)%nat /\ rect p) P.
Proof.
  intros Hr HP.
  destruct (patch_views_default a) as (cs & Hviews & Hcs & _).
  rewrite (Hviews a eq_refl) in HP. injection HP as <-.
  apply Forall_fmap. eapply Forall_impl; [exact Hcs|].
  intros [c1 c2] Hc; simpl in *. split; [|by apply rect_slice2].
  by rewrite shape_patch by lia.
Qed.

(** X8: [get_patch_CC], and so [get_SNR], raise IndexError when the first
    image has a patch (both dimensions above 192) and the second one has
    none: the patches of the second image are indexed with the patch count
    of the first. *)
Theorem get_patch_CC_index_error (s : store) (image1 image2 : loc)
    (a b : array2 R) :
  s !! image1 = Some a -> s !! image2 = Some b -> rect a ->
  (192 < nrows a)%nat -> (192 < ncols a)%nat ->
  (nrows b <= 192 \/ ncols b <= 192)%nat ->
  (get_patch_CC image1 image2 s).1 = Err IndexError
  /\ (get_SNR image1 image2 s).1 = Err IndexError.
Proof.
  intros H1 H2 Ha Hx Hy Hb.
  destruct (patch_views_default a) as (cs & Hviews & _ & Hne).
  specialize (Hne Hx Hy). pose proof (Hviews a eq_refl) as HP1.
  set (P1 := map (fun c : Z * Z => slice2 c.1 (c.1 + 192) c.2 (c.2 + 192) a) cs)
    in *.
  assert (Forall (fun p => shape p = (192, 192)%nat) P1) as Hsh.
  { eapply Forall_impl; [by apply (patch_views_shapes a)|]. by intros p [? _]. }
  assert (patch_views b 192 0 = Ok []) as HP2
    by (apply patch_views_small; [rewrite default_step|]; lia).
  assert (exists n, length P1 = S n) as [n Hn].
  { unfold P1. rewrite length_map. destruct cs; [done|]. by eexists. }
  assert (get_patch_CC image1 image2 s = (Err IndexError, s ++ P1)) as Hrun.
  { unfold get_patch_CC. unfold bind at 1.
    rewrite (get_patches_run s image1 a 192 0 P1 (192, 192)%nat) by done.
    unfold bind at 1.
    rewrite (get_patches_run (s ++ P1) image2 b 192 0 [] (192, 192)%nat)
      by (try done; by apply lookup_app_l_Some).
    rewrite length_seq, Hn. cbn [seq for_each].
    unfold bind, lift, py_index. simpl. by rewrite app_nil_r. }
  split; [by rewrite Hrun|]. unfold get_SNR, bind. by rewrite Hrun.
Qed.

Lemma get_patch_CC_index_error_witness :
  let a := Array2 193 (replicate 193 (replicate 193 1)) in
  let b := Array2 2 [[1; 2]] in
  (get_patch_CC 0 1 [a; b]).1 = Err IndexError
  /\ (get_SNR 0 1 [a; b]).1 = Err IndexError.
Proof.
  intros a b.
  apply (get_patch_CC_index_error [a; b] 0 1 a b);
    [reflexivity | reflexivity | apply rect_const_image
    | unfold a, nrows; simpl; lia | simpl; lia
    | left; unfold b, nrows; simpl; lia].
Defined.
End EstimatorsMore.

(** ** [fourier_pad_to_shape] and [unbin_mic] *)

Section Pad.
Local Open Scope R_scope.

(** Writing a block of full height [k] and width [c] into the left of
    the rows [r0 .. r0 + k] of [dst]. *)
Lemma assign_block_rows {A} (r0 r1 k c : nat) (src dst : array2 A) :
  rect src -> nrows src = k -> ncols src = c -> r1 = (r0 + k)%nat ->
  assign_block r0 r1 0 c src dst
  = Ok (Array2 (ncols dst)
          (take r0 (rows dst)
           ++ zip_with (fun d s => s ++ drop c d)
                (take k (drop r0 (rows dst))) (rows src)
           ++ drop r1 (rows dst))).
Proof.
  intros Hr Hk Hc ->. unfold assign_block.
  replace (r0 + k - r0)%nat with (nrows src) by lia.
  replace (c - 0)%nat with (ncols src) by lia.
  rewrite broadcast_to_same by done. cbn [rbind].
  rewrite Nat.max_r by lia. rewrite Nat.max_r by lia.
  by rewrite Hk.
Qed.

Lemma slice_rows_nonneg {A} (lo hi : nat) (a : array2 A) :
  slice_rows (Z.of_nat lo) (Z.of_nat hi) a
  = Array2 (ncols a) (take (hi - lo) (drop lo (rows a))).
Proof. unfold slice_rows. by rewrite py_slice_nonneg. Qed.

Lemma fourier_pad_run (g : array2 complex) (H W : nat) :
  rect g -> Nat.Even (nrows g) -> (nrows g <= H)%nat -> (ncols g <= W)%nat ->
  fourier_pad_to_shape g (H, W) = Ok (padded g H W).
Proof.
  intros Hr [k Hk] HH HW.
  unfold padded, fourier_pad_to_shape, shape. lazy beta iota zeta.
  unfold complex in *.
  assert (nrows g / 2 = k)%nat as Hhalf
    by (rewrite Hk, (Nat.mul_comm 2 k); by apply Nat.div_mul).
  assert (length (rows g) = (2 * k)%nat) as Hlen by exact Hk.
  rewrite Hhalf.
  assert (Hpad : forall l : list (list (R * R)), length l = k ->
             zip_with (fun d s => s ++ drop (ncols g) d)
               (replicate k (replicate W ((0, 0) : R * R))) l
             = map (fun r => r ++ replicate (W - ncols g) (0, 0)) l).
  { intros l Hl. rewrite zip_with_replicate_l by lia.
    apply map_ext. intros r. by rewrite drop_replicate. }
  rewrite !slice_bound_in_range by lia. rewrite !Nat2Z.id.
  rewrite <- Nat2Z.inj_sub by lia. rewrite Nat2Z.id.
  change (slice_rows 0 (Z.of_nat k) g)
    with (slice_rows (Z.of_nat 0) (Z.of_nat k) g).
  rewrite !slice_rows_nonneg. rewrite Nat.sub_0_r, drop_0.
  rewrite (take_ge (drop k (rows g)))
    by (rewrite length_drop; unfold nrows; lia).
  assert (length (take k (rows g)) = k) as Hlt by (rewrite length_take; lia).
  assert (length (drop k (rows g)) = k) as Hlb by (rewrite length_drop; lia).
  (* the top block *)
  rewrite (assign_block_rows 0 k k (ncols g));
    [| by apply Forall_take | done | done | done].
  cbn [rbind]. unfold zeros; cbn [rows ncols fst snd].
  rewrite drop_0, take_0, app_nil_l.
  rewrite take_replicate, Nat.min_l by lia.
  rewrite drop_replicate, Hpad by done.
  (* the bottom block *)
  rewrite (assign_block_rows (H - k) H k (ncols g));
    [| by apply Forall_drop | done | done | lia].
  cbn [rows ncols].
  rewrite take_app_ge by (rewrite length_map, length_take; unfold nrows in *; lia).
  rewrite drop_app_ge by (rewrite length_map, length_take; unfold nrows in *; lia).
  rewrite length_map, Hlt. rewrite take_replicate, drop_replicate.
  rewrite (drop_ge (_ ++ _))
    by (rewrite length_app, length_map, length_take, length_replicate;
        unfold nrows in *; lia).
  rewrite take_replicate.
  replace (k `min` (H - k - (H - k - k)))%nat with k by lia.
  rewrite Hpad by done. rewrite app_nil_r, <- app_assoc.
  do 3 f_equal. f_equal. f_equal. unfold nrows in *. lia.
Qed.

(** The shape and the bands of the padded array. *)
Lemma padded_facts (g : array2 complex) (H W : nat) :
  rect g -> Nat.Even (nrows g) -> (nrows g <= H)%nat -> (ncols g <= W)%nat ->
  shape (padded g H W) = (H, W) /\ rect (padded g H W)
  /\ take (nrows g / 2) (rows (padded g H W))
     = map (fun r => r ++ replicate (W - ncols g) (0, 0))
           (take (nrows g / 2) (rows g))
  /\ drop (H - nrows g / 2) (rows (padded g H W))
     = map (fun r => r ++ replicate (W - ncols g) (0, 0))
           (drop (nrows g / 2) (rows g))
  /\ forall i, (nrows g / 2 <= i < H - nrows g / 2)%nat ->
               rows (padded g H W) !! i = Some (replicate W (0, 0)).
Proof.
  intros Hr Heven HH HW. unfold padded. cbv zeta.
  destruct Heven as [j Hj].
  assert (nrows g / 2 = j)%nat as ->
    by (rewrite Hj, (Nat.mul_comm 2 j); by apply Nat.div_mul).
  unfold complex, nrows in *. cbn [rows ncols].
  split; [|split; [|split; [|split]]].
  - unfold shape, nrows; cbn [rows ncols].
    rewrite !length_app, !length_map, length_take, length_drop,
      length_replicate.
    f_equal. lia.
  - unfold rect; cbn [rows ncols]. rewrite !Forall_app. repeat split.
    + apply Forall_fmap. eapply Forall_impl; [apply Forall_take, Hr|].
      intros r Hl; simpl in *.
      rewrite length_app, length_replicate. lia.
    + apply Forall_replicate, length_replicate.
    + apply Forall_fmap. eapply Forall_impl; [apply Forall_drop, Hr|].
      intros r Hl; simpl in *.
      rewrite length_app, length_replicate. lia.
  - rewrite take_app_le by (rewrite length_map, length_take; lia).
    apply take_ge. rewrite length_map, length_take. lia.
  - rewrite app_assoc. rewrite drop_app_ge
      by (rewrite length_app, length_map, length_take, length_replicate; lia).
    rewrite length_app, length_map, length_take, length_replicate.
    by replace (H - j - (j `min` length (rows g) + (H - length (rows g))))%nat
      with 0%nat by lia.
  - intros i Hi.
    rewrite lookup_app_r by (rewrite length_map, length_take; lia).
    rewrite length_map, length_take.
    rewrite lookup_app_l by (rewrite length_replicate; lia).
    apply lookup_replicate_2. lia.
Qed.

(** X11: for a spectrum with an even number of rows and a target shape
    that is at least as large, [fourier_pad_to_shape] returns an array of
    the target shape: its first [n_x / 2] rows are the first rows of the
    spectrum, its last [n_x / 2] rows are the last rows of the spectrum,
    each followed by zeros, and every row in between is zero. *)
Theorem fourier_pad_layout (g : array2 complex) (H W : nat) :
  rect g -> Nat.Even (nrows g) -> (nrows g <= H)%nat -> (ncols g <= W)%nat ->
  let k := (nrows g / 2)%nat in
  let pad := fun r : list complex => r ++ replicate (W - ncols g) (0, 0) in
  exists out,
    fourier_pad_to_shape g (H, W) = Ok out
    /\ shape out = (H, W) /\ rect out
    /\ take k (rows out) = map pad (take k (rows g))
    /\ drop (H - k) (rows out) = map pad (drop k (rows g))
    /\ forall i, (k <= i < H - k)%nat ->
                 rows out !! i = Some (replicate W (0, 0)).
Proof.
  intros Hr Heven HH HW k pad. subst k pad.
  exists (padded g H W). split; [by apply fourier_pad_run|].
  by apply padded_facts.
Qed.

Lemma fourier_pad_layout_witness :
  let g : array2 complex := Array2 2 [[(1, 0); (2, 0)]; [(3, 0); (4, 0)]] in
  let k := (nrows g / 2)%nat in
  let pad := fun r : list complex => r ++ replicate (3 - ncols g) (0, 0) in
  exists out,
    fourier_pad_to_shape g (4%nat, 3%nat) = Ok out
    /\ shape out = (4%nat, 3%nat) /\ rect out
    /\ take k (rows out) = map pad (take k (rows g))
    /\ drop (4 - k) (rows out) = map pad (drop k (rows g))
    /\ forall i, (k <= i < 4 - k)%nat ->
                 rows out !! i = Some (replicate 3 (0, 0)).
Proof.
  intros g.
  assert (rect g) as Hr by (unfold g; repeat constructor).
  assert (Nat.Even (nrows g)) as He by (by exists 1%nat).
  assert (nrows g <= 4)%nat as H4 by (unfold g, nrows; simpl; lia).
  assert (ncols g <= 3)%nat as H3 by (unfold g; simpl; lia).
  exact (fourier_pad_layout g 4 3 Hr He H4 H3).
Defined.

Lemma broadcast_to_error {A} (r c : nat) (a : array2 A) (e : exn) :
  broadcast_to r c a = Err e -> e = ValueError.
Proof.
  unfold broadcast_to. destruct (decide _); [done|]. by intros [= <-].
Qed.

(** X12: a spectrum with an odd number of rows, three or more, cannot be
    padded: whatever the target shape is, the bottom block has one row
    more than the rows it is assigned to, and numpy's ValueError is
    raised. *)
Theorem fourier_pad_odd_rows (g : array2 complex) (new_shape : nat * nat) :
  Nat.Odd (nrows g) -> (3 <= nrows g)%nat ->
  fourier_pad_to_shape g new_shape = Err ValueError.
Proof.
  intros [j Hj] H3. destruct new_shape as [H W].
  assert (nrows g / 2 = j)%nat as Hhalf.
  { rewrite Hj. rewrite Nat.add_comm, (Nat.mul_comm 2 j).
    rewrite Nat.div_add by lia. simpl. lia. }
  unfold fourier_pad_to_shape, shape. lazy beta iota zeta. rewrite Hhalf.
  assert (forall cur : array2 complex,
            assign_block (slice_bound H (Z.of_nat H - Z.of_nat j)) H
              0 (slice_bound W (Z.of_nat (ncols g)))
              (slice_rows (Z.of_nat j) (Z.of_nat (nrows g)) g) cur
            = Err ValueError) as Hbottom.
  { intros cur. unfold assign_block, broadcast_to.
    rewrite slice_rows_nonneg.
    set (b := Array2 (ncols g) (take (nrows g - j) (drop j (rows g)))).
    assert (nrows b = (j + 1)%nat) as Hb.
    { unfold b, nrows; cbn [rows]. rewrite length_take, length_drop.
      fold (nrows g). lia. }
    rewrite decide_False; [done|]. rewrite Hb.
    intros [[Hrows|Hrows] _]; [|lia].
    unfold slice_bound in Hrows.
    destruct (Z.of_nat H - Z.of_nat j <? 0)%Z eqn:E.
    - apply Z.ltb_lt in E. lia.
    - apply Z.ltb_ge in E. lia. }
  destruct (assign_block 0 _ 0 _ _ (zeros (H, W))) as [cur|e] eqn:Htop.
  - cbn [rbind]. apply Hbottom.
  - cbn [rbind]. f_equal. unfold assign_block in Htop.
    destruct (broadcast_to _ _ _) as [x|e'] eqn:Hb; [done|].
    cbn [rbind] in Htop. injection Htop as <-.
    by eapply broadcast_to_error.
Qed.

Lemma fourier_pad_odd_rows_witness :
  fourier_pad_to_shape
    (Array2 1 [[(1, 0)]; [(2, 0)]; [(3, 0)]]) (6%nat, 2%nat)
  = Err ValueError.
Proof.
  apply fourier_pad_odd_rows; [by exists 1%nat | unfold nrows; simpl; lia].
Defined.
End Pad.

(** ** Cropping a padded spectrum *)

Section CropOfPadded.
Local Open Scope R_scope.

Lemma insertion_point_unique (l : list R) (key : R) (c c' : nat) :
  insertion_point l key c -> insertion_point l key c' -> c = c'.
Proof.
  intros (Hc & Hlt & Hge) (Hc' & Hlt' & Hge').
  destruct (Nat.lt_trichotomy c c') as [Hl|[?|Hl]]; [exfalso|done|exfalso].
  - destruct (lookup_lt_is_Some_2 l c ltac:(lia)) as [x Hx].
    pose proof (Hge _ _ Hx ltac:(lia)). pose proof (Hlt' _ _ Hx Hl). lra.
  - destruct (lookup_lt_is_Some_2 l c' ltac:(lia)) as [x Hx].
    pose proof (Hge' _ _ Hx ltac:(lia)). pose proof (Hlt _ _ Hx Hl). lra.
Qed.

(** The two bands of the padded array, cut back to the width of the
    spectrum, are the spectrum. *)
Lemma crop_padded (g : array2 complex) (H W : nat) :
  rect g -> Nat.Even (nrows g) -> (nrows g <= H)%nat -> (ncols g <= W)%nat ->
  Array2 (ncols g)
    (map (take (ncols g))
       (take (nrows g / 2) (rows (padded g H W))
        ++ drop (H - nrows g / 2) (rows (padded g H W))))
  = g.
Proof.
  intros Hr Heven HH HW.
  destruct (padded_facts g H W Hr Heven HH HW) as (_ & _ & -> & -> & _).
  rewrite <- fmap_app, take_drop, <- list_fmap_compose.
  destruct g as [c rs]. cbn [rows ncols] in *. f_equal.
  unfold rect in Hr; cbn [rows ncols] in Hr. clear Heven HH.
  induction Hr as [|r rs Hlen Hr IH]; [done|].
  cbn [fmap list_fmap]. f_equal; [|exact IH].
  simpl. by rewrite take_app_length' by done.
Qed.

(** X13: padding and cropping are inverse to each other.  When a spectrum
    with an even number of rows is padded to a larger shape, and the
    padded spectrum is cropped with a frequency field of that shape whose
    two axes have the width and half the height of the spectrum as the
    insertion points of the cutoff, the result is the spectrum itself. *)
Theorem fourier_crop_of_padded (g : array2 complex) (H W : nat)
    (mic_freqs : array2 R) (cutoff : R) (f_h : list R) :
  rect g -> Nat.Even (nrows g) -> (nrows g <= H)%nat -> (ncols g <= W)%nat ->
  (0 < W)%nat -> shape mic_freqs = (H, W) ->
  rows mic_freqs !! 0%nat = Some f_h -> length f_h = W ->
  sorted f_h -> sorted (vertical_axis H mic_freqs) ->
  insertion_point f_h cutoff (ncols g) ->
  insertion_point (vertical_axis H mic_freqs) cutoff (nrows g / 2) ->
  (mic_ft_pad <- fourier_pad_to_shape g (H, W) ;;
   fourier_crop mic_ft_pad mic_freqs cutoff)%py = Ok g.
Proof.
  intros Hr Heven HH HW HW0 Hsf Hf0 Hlen Hsh Hsv Hih Hiv.
  rewrite fourier_pad_run by done. cbn [rbind].
  destruct (padded_facts g H W Hr Heven HH HW) as (Hsp & Hrp & _).
  assert (nrows (padded g H W) = H /\ ncols (padded g H W) = W) as [Hnp Hcp]
    by (unfold shape in Hsp; split; congruence).
  assert (ncols mic_freqs = W) as Hcf by (unfold shape in Hsf; congruence).
  destruct (fourier_crop_run (padded g H W) mic_freqs cutoff f_h)
    as (c_h & c_v & Hch & Hcv & _ & _ & ->);
    [done | congruence | done | congruence | lia | done
    | by rewrite Hnp |].
  rewrite Hnp in *.
  rewrite (insertion_point_unique _ _ _ _ Hch Hih).
  rewrite (insertion_point_unique _ _ _ _ Hcv Hiv).
  f_equal. by apply crop_padded.
Qed.

Lemma fourier_crop_of_padded_witness :
  let g : array2 complex := Array2 1 [[(1, 0)]; [(2, 0)]] in
  let mic_freqs := Array2 2 [[0; 1]; [1; 1]; [1; 1]; [1; 1]] in
  (mic_ft_pad <- fourier_pad_to_shape g (4%nat, 2%nat) ;;
   fourier_crop mic_ft_pad mic_freqs 1)%py = Ok g.
Proof.
  intros g mic_freqs.
  assert (sorted [0; 1]) as Hs.
  { intros i j x y Hij Hx Hy.
    destruct i as [|[|i]], j as [|[|j]]; simplify_eq/=; first [lra | lia]. }
  assert (insertion_point [0; 1] 1 1) as Hi.
  { split; [simpl; lia|]. split; intros i x Hx Hlt.
    - destruct i as [|i]; [|lia]. simplify_eq/=. lra.
    - destruct i as [|[|i]]; simplify_eq/=; first [lra | lia]. }
  assert (vertical_axis 4 mic_freqs = [0; 1]) as Hv by reflexivity.
  apply (fourier_crop_of_padded g 4 2 mic_freqs 1 [0; 1]);
    [repeat constructor | by exists 1%nat | unfold nrows; simpl; lia
    | simpl; lia | lia | reflexivity | reflexivity | reflexivity
    | exact Hs | by rewrite Hv | exact Hi | by rewrite Hv].
Defined.
End CropOfPadded.

(** ** [unbin_mic] *)

Section Unbin.
Local Open Scope R_scope.

Lemma length_fftfreq (n : nat) (d : R) (l : list R) :
  fftfreq n d = Ok l -> length l = n.
Proof.
  unfold fftfreq. destruct (Rzerob _); [done|]. intros [= <-].
  rewrite length_map, length_app, !length_seqZ.
  apply Nat2Z.inj. rewrite Nat2Z.inj_add, !Z2Nat.id;
    Z.to_euclidean_division_equations; lia.
Qed.

Lemma length_rfftfreq (n : nat) (d : R) (l : list R) :
  rfftfreq n d = Ok l -> length l = (n / 2 + 1)%nat.
Proof.
  unfold rfftfreq. destruct (Rzerob _); [done|]. intros [= <-].
  rewrite length_map, length_seqZ.
  apply Nat2Z.inj.
  rewrite Nat2Z.inj_add, Nat2Z.inj_div, Z2Nat.id;
    Z.to_euclidean_division_equations; lia.
Qed.

Lemma unit_spacing (n : nat) : (0 < n)%nat -> Rzerob (INR n * 1) = false.
Proof.
  intros Hn. apply Rzerob_false. rewrite Rmult_1_r. apply not_0_INR. lia.
Qed.

(** With a target shape without a zero the two frequency lists only give
    the shape of the padded spectrum: [(H, W // 2 + 1)]. *)
Lemma unbin_mic_run (mic : array2 R) (H W : nat) :
  (0 < H)%nat -> (0 < W)%nat ->
  unbin_mic mic (H, W)
  = (mic_ft <- rfft2 mic ;;
     mic_ft <- fourier_pad_to_shape mic_ft (H, (W / 2 + 1)%nat) ;;
     irfft2 mic_ft)%py.
Proof.
  intros HH HW. unfold unbin_mic. cbn [fst snd].
  destruct (fftfreq H 1) as [fx|e] eqn:Hfx.
  2: { unfold fftfreq in Hfx. by rewrite unit_spacing in Hfx by done. }
  destruct (rfftfreq W 1) as [fy|e] eqn:Hfy.
  2: { unfold rfftfreq in Hfy. by rewrite unit_spacing in Hfy by done. }
  cbn [rbind].
  by rewrite (length_fftfreq _ _ _ Hfx), (length_rfftfreq _ _ _ Hfy).
Qed.

Lemma unbin_mic_even (mic : array2 R) (H W : nat) :
  (0 < nrows mic)%nat -> (0 < ncols mic)%nat -> Nat.Even (nrows mic) ->
  (nrows mic <= H)%nat -> (ncols mic / 2 <= W / 2)%nat -> (0 < W)%nat ->
  exists g : array2 complex,
    rfft2 mic = Ok g
    /\ unbin_mic mic (H, W) = irfft2 (padded g H (W / 2 + 1))
    /\ shape (padded g H (W / 2 + 1)) = (H, (W / 2 + 1)%nat).
Proof.
  intros Hx Hy Heven HH HW HW0.
  destruct (rfft2_run mic Hx Hy) as (g & Hg & Hrg & Hsg).
  assert (nrows g = nrows mic /\ ncols g = (ncols mic / 2 + 1)%nat)
    as [Hng Hcg] by (unfold shape in Hsg; split; congruence).
  exists g. split; [done|].
  assert (Nat.Even (nrows g)) as Heg by (by rewrite Hng).
  assert (nrows g <= H)%nat as HgH by lia.
  assert (ncols g <= W / 2 + 1)%nat as HgW by lia.
  split.
  - rewrite unbin_mic_run by lia. rewrite Hg. cbn [rbind].
    by rewrite fourier_pad_run by done.
  - by destruct (padded_facts g H (W / 2 + 1) Hrg Heg HgH HgW) as [-> _].
Qed.

(** X14: [unbin_mic] of an image with an even number of rows to a shape
    [(H, W)] with at least as many rows and at least as many column
    frequencies returns an image with [H] rows and [2 * (W // 2)] columns:
    the requested shape exactly when [W] is even, one column less when it
    is odd. *)
Theorem unbin_mic_shape (mic : array2 R) (H W : nat) :
  (0 < nrows mic)%nat -> (0 < ncols mic)%nat -> Nat.Even (nrows mic) ->
  (nrows mic <= H)%nat -> (ncols mic / 2 <= W / 2)%nat -> (2 <= W)%nat ->
  exists out,
    unbin_mic mic (H, W) = Ok out
    /\ shape out = (H, (2 * (W / 2))%nat)
    /\ (shape out = (H, W) <-> Nat.Even W).
Proof.
  intros Hx Hy Heven HH HW HW2.
  destruct (unbin_mic_even mic H W) as (g & _ & -> & Hsp); try done; [lia|].
  assert (nrows (padded g H (W / 2 + 1)) = H
          /\ ncols (padded g H (W / 2 + 1)) = (W / 2 + 1)%nat) as [Hnp Hcp]
    by (unfold shape in Hsp; split; congruence).
  assert (1 <= W / 2)%nat as Hhalf by (apply Nat.div_le_lower_bound; lia).
  destruct (irfft2_run (padded g H (W / 2 + 1))) as (out & -> & Hso);
    [lia | lia |].
  rewrite Hnp, Hcp in Hso.
  replace (W / 2 + 1 - 1)%nat with (W / 2)%nat in Hso by lia.
  exists out. split; [done|]. split; [done|].
  rewrite Hso. split.
  - intros Heq. assert (2 * (W / 2) = W)%nat as Heq2 by congruence.
    exists (W / 2)%nat. lia.
  - intros [k ->]. do 2 f_equal.
    rewrite (Nat.mul_comm 2 k). by apply Nat.div_mul.
Qed.

Lemma unbin_mic_shape_witness :
  let mic := Array2 2 [[1; 2]; [3; 4]] in
  exists out,
    unbin_mic mic (4%nat, 5%nat) = Ok out
    /\ shape out = (4%nat, (2 * (5 / 2))%nat)
    /\ (shape out = (4%nat, 5%nat) <-> Nat.Even 5).
Proof.
  intros mic.
  assert (0 < nrows mic)%nat as Hx by (unfold mic, nrows; simpl; lia).
  assert (0 < ncols mic)%nat as Hy by (unfold mic; simpl; lia).
  assert (Nat.Even (nrows mic)) as He by (by exists 1%nat).
  assert (nrows mic <= 4)%nat as HH by (unfold mic, nrows; simpl; lia).
  assert (ncols mic / 2 <= 5 / 2)%nat as HW by (unfold mic; simpl; lia).
  exact (unbin_mic_shape mic 4 5 Hx Hy He HH HW ltac:(lia)).
Defined.

(** X15: a target shape with a zero in it is refused before the image is
    looked at: the frequency list of no sample divides by zero. *)
Theorem unbin_mic_zero_dimension (mic : array2 R) (unbin_shape : nat * nat) :
  unbin_shape.1 = 0%nat \/ unbin_shape.2 = 0%nat ->
  unbin_mic mic unbin_shape = Err ZeroDivisionError.
Proof.
  destruct unbin_shape as [H W]. cbn [fst snd]. intros Hz.
  unfold unbin_mic. cbn [fst snd].
  destruct (decide (H = 0%nat)) as [->|HH].
  - unfold fftfreq. rewrite Rzerob_true by (simpl; lra). done.
  - destruct Hz as [? | ->]; [done|].
    destruct (fftfreq H 1) as [fx|e] eqn:Hfx.
    2: { unfold fftfreq in Hfx. by rewrite unit_spacing in Hfx by lia. }
    cbn [rbind]. unfold rfftfreq. rewrite Rzerob_true by (simpl; lra). done.
Qed.

Lemma unbin_mic_zero_dimension_witness :
  unbin_mic (Array2 2 [[1; 2]; [3; 4]]) (4%nat, 0%nat) = Err ZeroDivisionError.
Proof. apply unbin_mic_zero_dimension. by right. Defined.

Lemma assign_block_ncols {A} (r0 r1 c0 c1 : nat) (src dst out : array2 A) :
  assign_block r0 r1 c0 c1 src dst = Ok out -> ncols out = ncols dst.
Proof.
  unfold assign_block. destruct (broadcast_to _ _ _); [|done].
  cbn [rbind]. by intros [= <-].
Qed.

Lemma assign_block_error {A} (r0 r1 c0 c1 : nat) (src dst : array2 A)
    (e : exn) :
  assign_block r0 r1 c0 c1 src dst = Err e -> e = ValueError.
Proof.
  unfold assign_block. destruct (broadcast_to _ _ _) eqn:Hb; [done|].
  cbn [rbind]. intros [= <-]. by eapply broadcast_to_error.
Qed.

(** Whatever [fourier_pad_to_shape] returns has the requested number of
    columns, and ValueError is the only exception it raises. *)
Lemma fourier_pad_result (g : array2 complex) (H W : nat) :
  match fourier_pad_to_shape g (H, W) with
  | Ok p => ncols p = W
  | Err e => e = ValueError
  end.
Proof.
  unfold fourier_pad_to_shape, shape. lazy beta iota zeta.
  destruct (assign_block 0 _ 0 _ _ (zeros (H, W))) as [cur|e] eqn:Htop;
    cbn [rbind].
  - apply assign_block_ncols in Htop. cbn [zeros ncols snd] in Htop.
    destruct (assign_block _ H 0 _ _ cur) as [p|e] eqn:Hbot.
    + apply assign_block_ncols in Hbot. congruence.
    + by eapply assign_block_error.
  - by eapply assign_block_error.
Qed.

(** X16: no image can be resized to a width of one pixel: the padded
    spectrum then has a single column, which the inverse transform
    refuses, when the transform or the padding have not failed before;
    the exception is ValueError in each case. *)
Theorem unbin_mic_width_one (mic : array2 R) (H : nat) :
  (0 < H)%nat -> unbin_mic mic (H, 1%nat) = Err ValueError.
Proof.
  intros HH. rewrite unbin_mic_run by lia.
  change (1 / 2 + 1)%nat with 1%nat.
  destruct (rfft2 mic) as [g|e] eqn:Hg; cbn [rbind].
  - pose proof (fourier_pad_result g H 1) as Hp.
    destruct (fourier_pad_to_shape g (H, 1%nat)) as [p|e]; cbn [rbind].
    + unfold irfft2. rewrite decide_True by lia. done.
    + by rewrite Hp.
  - unfold rfft2 in Hg. destruct (decide _); [|done]. by injection Hg as <-.
Qed.

Lemma unbin_mic_width_one_witness :
  unbin_mic (Array2 1 [[1]; [3]]) (4%nat, 1%nat) = Err ValueError.
Proof. apply unbin_mic_width_one. lia. Defined.
End Unbin.

(** ** The shape of a binned micrograph *)

Section BinShape.
Local Open Scope R_scope.





End BinShape.

(** ** The frequency field of [get_mic_freqs] *)

Section FrequenciesMore.
Local Open Scope R_scope.

(** The signed index of the [i]-th frequency of [fftfreq(n)]: first the
    non-negative ones, then the negative ones. *)
Lemma fftfreq_index (n i : nat) :
  (i < n)%nat ->
  (seqZ 0 ((Z.of_nat n - 1) / 2 + 1)
   ++ seqZ (- (Z.of_nat n / 2)) (Z.of_nat n / 2)) !! i
  = Some (if decide (2 * i < n)%nat then Z.of_nat i
          else (Z.of_nat i - Z.of_nat n)%Z).
Proof.
  intros Hi. destruct (decide (2 * i < n)%nat) as [Hlt|Hge].
  - rewrite lookup_app_l
      by (rewrite length_seqZ; Z.to_euclidean_division_equations; lia).
    rewrite lookup_seqZ_lt by (Z.to_euclidean_division_equations; lia).
    f_equal.
  - assert (Z.to_nat ((Z.of_nat n - 1) / 2 + 1) <= i)%nat as Hle
      by (Z.to_euclidean_division_equations; lia).
    rewrite lookup_app_r by (by rewrite length_seqZ).
    rewrite length_seqZ.
    rewrite lookup_seqZ_lt by (Z.to_euclidean_division_equations; lia).
    f_equal. Z.to_euclidean_division_equations. lia.
Qed.

Lemma get_mic_freqs_explicit {A} (mic : array2 A) (apix : R) :
  0 < apix -> (0 < nrows mic)%nat -> (0 < ncols mic)%nat ->
  let vx := 1 / (INR (ncols mic) * apix) in
  let vy := 1 / (INR (nrows mic) * apix) in
  let fx := map (fun k => IZR k * vx)
              (seqZ 0 (Z.of_nat (ncols mic) / 2 + 1)) in
  let fy := map (fun k => IZR k * vy)
              (seqZ 0 ((Z.of_nat (nrows mic) - 1) / 2 + 1)
               ++ seqZ (- (Z.of_nat (nrows mic) / 2))
                    (Z.of_nat (nrows mic) / 2)) in
  get_mic_freqs mic apix
  = Ok (Array2 (length fx)
          (map (fun y => map (fun x => sqrt (x ^ 2 + y ^ 2)) fx) fy)).
Proof.
  intros Hapix Hnx Hny vx vy fx fy.
  assert (0 < INR (nrows mic)) as Hrx by (apply lt_0_INR; lia).
  assert (0 < INR (ncols mic)) as Hry by (apply lt_0_INR; lia).
  unfold get_mic_freqs, shape, rfftfreq, fftfreq. cbv zeta.
  rewrite !Rzerob_false by (apply Rgt_not_eq; by apply Rmult_lt_0_compat).
  cbn [rbind]. fold vx vy. fold fx fy.
  pose proof (mesh_rows fx fy) as Hm.
  destruct (meshgrid fx fy) as [x y]. by rewrite Hm.
Qed.

(** X19: the field of [get_mic_freqs] for a positive pixel size and a
    non-empty image.  It has the shape of [rfft2] of the image; its entry
    [(i, j)] is the norm of the horizontal frequency [j / (n_y * apix)]
    and the vertical frequency [k / (n_x * apix)], where [k] is [i] in
    the upper half ([2 * i < n_x]) and [i - n_x] below; so row [i] and
    row [n_x - i] are equal. *)
Theorem get_mic_freqs_entries {A} (mic : array2 A) (apix : R) :
  0 < apix -> (0 < nrows mic)%nat -> (0 < ncols mic)%nat ->
  exists f : array2 R,
    get_mic_freqs mic apix = Ok f
    /\ shape f = (nrows mic, (ncols mic / 2 + 1)%nat)
    /\ (forall (i j : nat) (row : list R) (x : R),
          rows f !! i = Some row -> row !! j = Some x ->
          let k := if decide (2 * i < nrows mic)%nat then Z.of_nat i
                   else (Z.of_nat i - Z.of_nat (nrows mic))%Z in
          x = sqrt ((INR j * (1 / (INR (ncols mic) * apix))) ^ 2
                    + (IZR k * (1 / (INR (nrows mic) * apix))) ^ 2))
    /\ (forall i : nat, (0 < i < nrows mic)%nat ->
          rows f !! i = rows f !! (nrows mic - i)%nat).
Proof.
  intros Hapix Hnx Hny.
  pose proof (get_mic_freqs_explicit mic apix Hapix Hnx Hny) as Hf.
  cbv zeta in Hf.
  set (vx := 1 / (INR (ncols mic) * apix)) in *.
  set (vy := 1 / (INR (nrows mic) * apix)) in *.
  set (fx := map (fun k => IZR k * vx)
               (seqZ 0 (Z.of_nat (ncols mic) / 2 + 1))) in *.
  set (ks := seqZ 0 ((Z.of_nat (nrows mic) - 1) / 2 + 1)
             ++ seqZ (- (Z.of_nat (nrows mic) / 2))
                  (Z.of_nat (nrows mic) / 2)) in *.
  eexists. split; [exact Hf|]. cbn [rows].
  assert (Hrow : forall i, (i < nrows mic)%nat ->
            map (fun y => map (fun x => sqrt (x ^ 2 + y ^ 2)) fx)
                (map (fun k => IZR k * vy) ks) !! i
            = Some (map (fun x =>
                           sqrt (x ^ 2
                                 + (IZR (if decide (2 * i < nrows mic)%nat
                                         then Z.of_nat i
                                         else (Z.of_nat i
                                               - Z.of_nat (nrows mic))%Z)
                                    * vy) ^ 2)) fx)).
  { intros i Hi. rewrite !list_lookup_fmap. unfold ks.
    by rewrite fftfreq_index by done. }
  split; [|split].
  - unfold shape. unfold nrows at 1. cbn [rows ncols]. f_equal.
    + rewrite !length_map. unfold ks. rewrite length_app, !length_seqZ.
      apply Nat2Z.inj. rewrite Nat2Z.inj_add, !Z2Nat.id;
        Z.to_euclidean_division_equations; lia.
    + unfold fx. rewrite length_map, length_seqZ.
      apply Nat2Z.inj.
      rewrite Nat2Z.inj_add, Nat2Z.inj_div, Z2Nat.id;
        Z.to_euclidean_division_equations; lia.
  - intros i j row x Hi Hj.
    assert (i < nrows mic)%nat as Hlt.
    { apply lookup_lt_Some in Hi. rewrite !length_map in Hi. unfold ks in Hi.
      rewrite length_app, !length_seqZ in Hi.
      Z.to_euclidean_division_equations. lia. }
    rewrite Hrow in Hi by done. injection Hi as <-.
    rewrite list_lookup_fmap in Hj.
    destruct (fx !! j) as [x0|] eqn:Hx; [|done]. injection Hj as <-.
    unfold fx in Hx. rewrite list_lookup_fmap in Hx.
    destruct (seqZ _ _ !! j) as [kj|] eqn:Hk; [|done].
    apply lookup_seqZ in Hk as [-> _]. injection Hx as <-.
    by rewrite Z.add_0_l, <- INR_IZR_INZ.
  - intros i Hi. rewrite !Hrow by lia. f_equal.
    apply map_ext. intros x. f_equal. f_equal.
    destruct (decide (2 * i < nrows mic)%nat) as [H1|H1],
             (decide (2 * (nrows mic - i) < nrows mic)%nat) as [H2|H2].
    + lia.
    + replace (Z.of_nat (nrows mic - i) - Z.of_nat (nrows mic))%Z
        with (- Z.of_nat i)%Z by lia.
      rewrite opp_IZR. ring.
    + replace (Z.of_nat i - Z.of_nat (nrows mic))%Z
        with (- Z.of_nat (nrows mic - i))%Z by lia.
      rewrite opp_IZR. ring.
    + replace (nrows mic - i)%nat with i by lia. done.
Qed.

Lemma get_mic_freqs_entries_witness :
  let mic := Array2 4 (replicate 4 (replicate 4 0)) in
  exists f : array2 R,
    get_mic_freqs mic 1 = Ok f
    /\ shape f = (nrows mic, (ncols mic / 2 + 1)%nat)
    /\ (forall (i j : nat) (row : list R) (x : R),
          rows f !! i = Some row -> row !! j = Some x ->
          let k := if decide (2 * i < nrows mic)%nat then Z.of_nat i
                   else (Z.of_nat i - Z.of_nat (nrows mic))%Z in
          x = sqrt ((INR j * (1 / (INR (ncols mic) * 1))) ^ 2
                    + (IZR k * (1 / (INR (nrows mic) * 1))) ^ 2))
    /\ (forall i : nat, (0 < i < nrows mic)%nat ->
          rows f !! i = rows f !! (nrows mic - i)%nat).
Proof.
  intros mic.
  assert (0 < nrows mic)%nat as Hx by (unfold mic, nrows; simpl; lia).
  assert (0 < ncols mic)%nat as Hy by (unfold mic; simpl; lia).
  exact (get_mic_freqs_entries mic 1 ltac:(lra) Hx Hy).
Defined.
End FrequenciesMore.

(** ** [fourier_pad_to_shape] with a target that is not larger *)

Section PadSmaller.
Local Open Scope R_scope.

Lemma zip_with_tail {A} (c : nat) (z : list A) (L l : list (list A)) :
  Forall (fun d => drop c d = z) L -> length L = length l ->
  zip_with (fun d s => s ++ drop c d) L l = map (fun s => s ++ z) l.
Proof.
  intros HL. revert l.
  induction HL as [|d L Hd HL IH]; intros [|s l] Hlen; try done.
  cbn [zip_with map]. rewrite Hd. f_equal. apply IH. simpl in Hlen. lia.
Qed.

(** What [fourier_pad_to_shape] returns whenever the top block fits: the
    bottom block is written last, over the end of the top block when
    there are fewer target rows than rows in the spectrum. *)
Lemma fourier_pad_rows (g : array2 complex) (H W : nat) :
  rect g -> Nat.Even (nrows g) -> (nrows g / 2 <= H)%nat ->
  (ncols g <= W)%nat ->
  let k := (nrows g / 2)%nat in
  let pad := fun r : list complex => r ++ replicate (W - ncols g) (0, 0) in
  fourier_pad_to_shape g (H, W)
  = Ok (Array2 W
          (take (H - k) (map pad (take k (rows g))
                         ++ replicate (H - k) (replicate W (0, 0)))
           ++ map pad (drop k (rows g)))).
Proof.
  intros Hr [k Hk] HH HW.
  assert (nrows g / 2 = k)%nat as Hhalf
    by (rewrite Hk, (Nat.mul_comm 2 k); by apply Nat.div_mul).
  rewrite Hhalf in *. cbv zeta.
  unfold fourier_pad_to_shape, shape. lazy beta iota zeta.
  unfold complex in *. rewrite Hhalf.
  assert (length (rows g) = (2 * k)%nat) as Hlen by exact Hk.
  assert (Hpad : forall l : list (list (R * R)), length l = k ->
             zip_with (fun d s => s ++ drop (ncols g) d)
               (replicate k (replicate W ((0, 0) : R * R))) l
             = map (fun r => r ++ replicate (W - ncols g) (0, 0)) l).
  { intros l Hl. rewrite zip_with_replicate_l by lia.
    apply map_ext. intros r. by rewrite drop_replicate. }
  rewrite !slice_bound_in_range by lia. rewrite !Nat2Z.id.
  rewrite <- Nat2Z.inj_sub by lia. rewrite Nat2Z.id.
  change (slice_rows 0 (Z.of_nat k) g)
    with (slice_rows (Z.of_nat 0) (Z.of_nat k) g).
  rewrite !slice_rows_nonneg. rewrite Nat.sub_0_r, drop_0.
  rewrite (take_ge (drop k (rows g)))
    by (rewrite length_drop; unfold nrows; lia).
  assert (length (take k (rows g)) = k) as Hlt by (rewrite length_take; lia).
  assert (length (drop k (rows g)) = k) as Hlb by (rewrite length_drop; lia).
  (* the top block *)
  rewrite (assign_block_rows 0 k k (ncols g));
    [| by apply Forall_take | done | done | done].
  cbn [rbind]. unfold zeros; cbn [rows ncols fst snd].
  rewrite drop_0, take_0, app_nil_l.
  rewrite take_replicate, Nat.min_l by lia.
  rewrite drop_replicate, Hpad by done.
  (* the bottom block *)
  rewrite (assign_block_rows (H - k) H k (ncols g));
    [| by apply Forall_drop | done | done | lia].
  cbn [rows ncols].
  rewrite (drop_ge _ H)
    by (rewrite length_app, length_map, length_replicate; lia).
  rewrite app_nil_r. do 3 f_equal.
  apply zip_with_tail.
  - apply Forall_take, Forall_drop, Forall_app. split.
    + apply Forall_fmap. eapply Forall_impl; [apply Forall_take, Hr|].
      intros r Hl; simpl in *. by rewrite drop_app_length' by done.
    + apply Forall_replicate. by rewrite drop_replicate.
  - rewrite length_take, length_drop, length_app, length_map,
      length_replicate. lia.
Qed.

Lemma assign_block_mismatch {A} (r0 r1 c0 c1 : nat) (src dst : array2 A) :
  ~ ((nrows src = r1 - r0 \/ nrows src = 1)
     /\ (ncols src = c1 - c0 \/ ncols src = 1))%nat ->
  assign_block r0 r1 c0 c1 src dst = Err ValueError.
Proof.
  intros Hn. unfold assign_block, broadcast_to. by rewrite decide_False.
Qed.

(** X20: [fourier_pad_to_shape] does not check that the target is larger
    than the spectrum.  With fewer target columns than the spectrum has
    (two or more), or fewer target rows than half of its rows (four or
    more), the assignment of the top block raises ValueError. *)
Theorem fourier_pad_too_small (g : array2 complex) (H W : nat) :
  ((W < ncols g)%nat /\ (2 <= ncols g)%nat)
  \/ ((H < nrows g / 2)%nat /\ (4 <= nrows g)%nat) ->
  fourier_pad_to_shape g (H, W) = Err ValueError.
Proof.
  intros Hsmall.
  unfold fourier_pad_to_shape, shape. lazy beta iota zeta.
  assert (4 <= nrows g -> 2 <= nrows g / 2)%nat as Hk
    by (intros Hx; apply Nat.div_le_lower_bound; lia).
  assert (nrows g / 2 <= nrows g)%nat as Hle
    by (pose proof (Nat.Div0.mul_div_le (nrows g) 2); lia).
  rewrite assign_block_mismatch; [done|].
  change (slice_rows 0 (Z.of_nat (nrows g / 2)) g)
    with (slice_rows (Z.of_nat 0) (Z.of_nat (nrows g / 2)) g).
  rewrite slice_rows_nonneg, Nat.sub_0_r, drop_0.
  assert (nrows (Array2 (ncols g) (take (nrows g / 2) (rows g)))
          = nrows g / 2)%nat as ->.
  { unfold nrows at 1. cbn [rows]. rewrite length_take. fold (nrows g). lia. }
  cbn [ncols]. unfold slice_bound.
  rewrite !(proj2 (Z.ltb_ge _ _)) by lia. rewrite !Nat2Z.id.
  intros [Hrows Hcols]. destruct Hsmall as [[Hw Hc]|[Hh Hr]]; lia.
Qed.

Lemma fourier_pad_too_small_witness :
  fourier_pad_to_shape (Array2 2 [[(1, 0); (2, 0)]; [(3, 0); (4, 0)]])
    (4%nat, 1%nat)
  = Err ValueError.
Proof.
  apply fourier_pad_too_small. left. simpl. lia.
Defined.

(** X21: with an even number [2 * k] of rows in the spectrum, enough
    columns and a number of target rows [H] from [k] to [2 * k], no
    exception is raised either: the bottom block overwrites the last
    [2 * k - H] rows of the top block, and the result keeps the first
    [H - k] and the last [k] rows of the spectrum. *)
Theorem fourier_pad_overlap (g : array2 complex) (H W : nat) :
  rect g -> Nat.Even (nrows g) ->
  (nrows g / 2 <= H <= nrows g)%nat -> (ncols g <= W)%nat ->
  let k := (nrows g / 2)%nat in
  let pad := fun r : list complex => r ++ replicate (W - ncols g) (0, 0) in
  fourier_pad_to_shape g (H, W)
  = Ok (Array2 W (map pad (take (H - k) (rows g) ++ drop k (rows g)))).
Proof.
  intros Hr Heven [Hlo Hhi] HW k pad.
  pose proof (fourier_pad_rows g H W Hr Heven Hlo HW) as Hrun.
  cbv zeta in Hrun. rewrite Hrun. subst k pad. do 2 f_equal.
  rewrite fmap_app. f_equal.
  destruct Heven as [j Hj].
  assert (nrows g / 2 = j)%nat as ->
    by (rewrite Hj, (Nat.mul_comm 2 j); by apply Nat.div_mul).
  unfold complex, nrows in *.
  rewrite take_app_le by (rewrite length_map, length_take; lia).
  rewrite <- fmap_take. f_equal.
  rewrite take_take. f_equal. lia.
Qed.

Lemma fourier_pad_overlap_witness :
  let g : array2 complex :=
    Array2 1 [[(1, 0)]; [(2, 0)]; [(3, 0)]; [(4, 0)]] in
  fourier_pad_to_shape g (3%nat, 1%nat)
  = Ok (Array2 1 (map (fun r : list complex => r ++ replicate (1 - ncols g) (0, 0))
                    (take (3 - nrows g / 2) (rows g)
                     ++ drop (nrows g / 2) (rows g)))).
Proof.
  intros g.
  assert (rect g) as Hr by (unfold g; repeat constructor).
  assert (Nat.Even (nrows g)) as He by (by exists 2%nat).
  assert (nrows g / 2 <= 3 <= nrows g)%nat as HH
    by (unfold g, nrows; simpl; lia).
  assert (ncols g <= 1)%nat as HW by (unfold g; simpl; lia).
  exact (fourier_pad_overlap g 3 1 Hr He HH HW).
Defined.
End PadSmaller.

(** ** More on the Butterworth factor *)

Section ButterworthMore.
Local Open Scope R_scope.

(** X23: for a positive cutoff the low-pass factor of [bin_mic] lies
    between 0 (excluded) and 1 and does not increase with the frequency;
    it does not depend on the sign of the frequency. *)
Theorem butterworth_decreasing (cutoff : R) (bwo : nat) (f f' : R) :
  0 < cutoff -> 0 <= f <= f' ->
  0 < butterworth cutoff bwo f' <= butterworth cutoff bwo f
  /\ butterworth cutoff bwo f <= 1
  /\ butterworth cutoff bwo (- f) = butterworth cutoff bwo f.
Proof.
  intros Hc [Hf Hff]. unfold butterworth.
  assert (0 <= f / cutoff) as H0
    by (apply Rmult_le_pos; [done | by apply Rlt_le, Rinv_0_lt_compat]).
  assert (f / cutoff <= f' / cutoff) as Hle
    by (apply Rmult_le_compat_r; [by apply Rlt_le, Rinv_0_lt_compat | done]).
  assert (0 <= (f / cutoff) ^ (2 * bwo)) as Hp by (by apply pow_le).
  assert ((f / cutoff) ^ (2 * bwo) <= (f' / cutoff) ^ (2 * bwo)) as Hpp
    by (by apply pow_incr).
  set (p := (f / cutoff) ^ (2 * bwo)) in *.
  set (p' := (f' / cutoff) ^ (2 * bwo)) in *.
  assert (1 / (1 + p) * (1 + p) = 1) as Hq by (field; lra).
  assert (1 / (1 + p') * (1 + p') = 1) as Hq' by (field; lra).
  assert (0 < 1 / (1 + p)) as Hpos
    by (apply Rdiv_lt_0_compat; lra).
  assert (0 < 1 / (1 + p')) as Hpos'
    by (apply Rdiv_lt_0_compat; lra).
  split; [split; [done | nra]|]. split; [nra|].
  do 2 f_equal. subst p.
  replace (- f / cutoff) with (- (f / cutoff)) by (field; lra).
  rewrite !pow_mult. f_equal. ring.
Qed.

Lemma butterworth_decreasing_witness :
  0 < butterworth (1 / 4) 5 (1 / 2) <= butterworth (1 / 4) 5 (1 / 8)
  /\ butterworth (1 / 4) 5 (1 / 8) <= 1
  /\ butterworth (1 / 4) 5 (- (1 / 8)) = butterworth (1 / 4) 5 (1 / 8).
Proof. apply butterworth_decreasing; lra. Defined.
End ButterworthMore.

(** ** [fourier_crop] on an arbitrary field *)

Section CropAnyField.
Local Open Scope R_scope.

(** The binary search stays between its two bounds, sorted list or not. *)
Lemma bisect_left_bounds (a : list R) (key : R) (fuel lo hi : nat) :
  (lo <= hi)%nat -> (lo <= bisect_left fuel a key lo hi <= hi)%nat.
Proof.
  revert lo hi. induction fuel as [|fuel IH]; intros lo hi Hle; [simpl; lia|].
  cbn [bisect_left]. destruct (decide (lo < hi)%nat) as [Hlt|]; [|lia].
  assert ((hi - lo) / 2 < hi - lo)%nat by (apply Nat.div_lt; lia).
  destruct (a !! _); [|lia].
  destruct (Rlt_dec _ _).
  - pose proof (IH (lo + (hi - lo) / 2 + 1)%nat hi ltac:(lia)). lia.
  - pose proof (IH lo (lo + (hi - lo) / 2)%nat ltac:(lia)). lia.
Qed.

Lemma searchsorted_le (a : list R) (key : R) :
  (searchsorted a key <= length a)%nat.
Proof.
  unfold searchsorted.
  pose proof (bisect_left_bounds a key (length a) 0 (length a) ltac:(lia)).
  lia.
Qed.

(** X24: [fourier_crop] with any frequency field, of whatever shape and
    order.  The only exception is the IndexError of a field without rows
    or without columns; with any other field the two blocks always stack,
    and the result has an even number of rows, at most as many rows and at
    most as many columns as the spectrum. *)
Theorem fourier_crop_any_field {A} (mic_ft : array2 A) (mic_freqs : array2 R)
    (cutoff : R) :
  ((nrows mic_freqs = 0 \/ ncols mic_freqs = 0)%nat ->
   fourier_crop mic_ft mic_freqs cutoff = Err IndexError)
  /\ ((0 < nrows mic_freqs)%nat -> (0 < ncols mic_freqs)%nat ->
      exists (out : array2 A) (c_v : nat),
        fourier_crop mic_ft mic_freqs cutoff = Ok out
        /\ nrows out = (2 * c_v)%nat
        /\ (2 * c_v <= nrows mic_ft)%nat
        /\ (ncols out <= ncols mic_ft)%nat).
Proof.
  unfold fourier_crop, shape. lazy beta iota zeta. split.
  - intros [Hr|Hc].
    + unfold nrows in Hr. destruct (rows mic_freqs); [done|simpl in Hr; lia].
    + destruct (rows mic_freqs); [done|]. cbn [rbind].
      by rewrite decide_True by done.
  - intros Hr Hc.
    destruct (rows mic_freqs) as [|f_h rest] eqn:Hrows;
      [unfold nrows in Hr; rewrite Hrows in Hr; simpl in Hr; lia|].
    cbn [rbind]. rewrite decide_False by lia. cbn [rbind].
    set (c_h := searchsorted f_h cutoff).
    set (c_v := searchsorted (vertical_axis (nrows mic_ft) mic_freqs) cutoff).
    assert (c_v <= nrows mic_ft / 2)%nat as Hcv.
    { pose proof (searchsorted_le
                    (vertical_axis (nrows mic_ft) mic_freqs) cutoff) as Hle.
      unfold vertical_axis in Hle at 2.
      rewrite length_map, length_take in Hle. fold c_v in Hle. lia. }
    pose proof (Nat.Div0.mul_div_le (nrows mic_ft) 2) as Hhalf.
    unfold vstack. rewrite decide_True by done.
    eexists _, c_v. split; [reflexivity|].
    unfold nrows at 1. cbn [rows ncols slice2].
    rewrite length_app, !length_map, !length_py_slice.
    fold (nrows mic_ft).
    pose proof (slice_bound_le (ncols mic_ft) (Z.of_nat c_h)) as Hch.
    rewrite !slice_bound_in_range by lia.
    split; [lia|]. split; lia.
Qed.
End CropAnyField.

(** ** [get_patches] with a step of zero *)

Section PatchesZeroStep.
Local Open Scope R_scope.



End PatchesZeroStep.
